(** * The asset-pack seed script ([scripts/seed/index.ts]), embedded and verified

    The script reads JSON fixtures from the newest data directory, upserts
    asset-pack and asset records and mirrors thumbnails and content files
    into the object store.  The synchronous parts of the script are embedded
    as functions in two small writer monads ([W] for code that only logs and
    reads files, [M] for code that also creates promises); the asynchronous
    parts are embedded as a labelled transition system: every promise chain
    of the script is a task that waits for one external operation at a time,
    and a label says which operation completes next and with what response.
    Theorems quantify over all label sequences, that is, over every
    interleaving and every behaviour of the object store, the database and
    the content host. *)

From Stdlib Require Import Ascii String ZArith.
From stdpp Require Import base option list sorting strings gmap.

Local Open Scope stdpp_scope.

(** ** Values of the script *)

(** A thrown value or a rejection reason; only [error.message] is observed. *)
Definition Error := string.

(** Outcome of synchronous code: a value, or a thrown error. *)
Inductive result (A : Type) : Type :=
| Ok (a : A)
| Throw (e : Error).
Arguments Ok {A} a.
Arguments Throw {A} e.

(** State of a JavaScript promise. *)
Inductive promise (A : Type) : Type :=
| pending
| fulfilled (a : A)
| rejected (e : Error).
Arguments pending {A}.
Arguments fulfilled {A} a.
Arguments rejected {A} e.

(** [resolve]/[reject] only act on a promise that is still pending. *)
Definition settle {A} (p q : promise A) : promise A :=
  match p with
  | pending => q
  | _ => p
  end.

(** A [Buffer], as its sequence of bytes. *)
Definition Buffer := string.

Definition Buffer_concat (chunks : list Buffer) : Buffer :=
  foldr String.append "" chunks.

Inductive ACL := private | publicRead.

Module DefaultAssetPack.
Record t := mk {
  id : string;
  title : string;
  url : string;
  thumbnail : string
}.
End DefaultAssetPack.

Module DefaultAsset.
Record t := mk {
  id : string;
  name : string;
  thumbnail : string;
  url : string;
  category : string;
  tags : list string;
  variations : list string;
  contents : list (string * string)
}.
End DefaultAsset.

Module DefaultAssetPackResponse.
Record data_t := mk_data { packs : list DefaultAssetPack.t }.
Record t := mk { ok : bool; data : data_t }.
End DefaultAssetPackResponse.

Module DefaultAssetResponse.
Record data_t := mk_data {
  id : string;
  version : Z;
  title : string;
  assets : list DefaultAsset.t
}.
Record t := mk { ok : bool; data : data_t }.
End DefaultAssetResponse.

(** *** Plain JavaScript objects

    The attribute objects handed to the record models are built with object
    spread and [utils.omit], so they are kept as property lists in property
    order. *)
Inductive Value :=
| VString (s : string)
| VStrings (l : list string)
| VRecord (l : list (string * string))
| VDate (t : Z).

Global Instance Value_eq_dec : EqDecision Value.
Proof. solve_decision. Defined.

Definition Obj := list (string * Value).

Fixpoint get (k : string) (o : Obj) : option Value :=
  match o with
  | [] => None
  | (k', v) :: o' => if decide (k' = k) then Some v else get k o'
  end.

(** [o[k] = v]: an existing property keeps its place, a new one goes last. *)
Fixpoint set (k : string) (v : Value) (o : Obj) : Obj :=
  match o with
  | [] => [(k, v)]
  | (k', v') :: o' =>
      if decide (k' = k) then (k, v) :: o' else (k', v') :: set k v o'
  end.

(** [utils.omit(obj, keys)] of decentraland-commons: a copy of [obj] without
    the properties named in [keys]. *)
Definition omit (o : Obj) (keys : list string) : Obj :=
  filter (λ kv, kv.1 ∉ keys) o.

(** [Object.values] of a [Record<string, string>]. *)
Definition Object_values (o : list (string * string)) : list string := o.*2.

(** What a template literal prints for a property that may be missing. *)
Definition template (v : option Value) : string :=
  match v with
  | Some (VString s) => s
  | Some (VStrings l) => String.concat "," l
  | Some (VRecord _) => "[object Object]"
  | Some (VDate _) => "[date]"
  | None => "undefined"
  end.

Definition template_string (s : option string) : string :=
  match s with
  | Some s => s
  | None => "undefined"
  end.

Definition DefaultAssetPack_object (p : DefaultAssetPack.t) : Obj :=
  [ ("id", VString (DefaultAssetPack.id p));
    ("title", VString (DefaultAssetPack.title p));
    ("url", VString (DefaultAssetPack.url p));
    ("thumbnail", VString (DefaultAssetPack.thumbnail p)) ].

Definition DefaultAsset_object (a : DefaultAsset.t) : Obj :=
  [ ("id", VString (DefaultAsset.id a));
    ("name", VString (DefaultAsset.name a));
    ("thumbnail", VString (DefaultAsset.thumbnail a));
    ("url", VString (DefaultAsset.url a));
    ("category", VString (DefaultAsset.category a));
    ("tags", VStrings (DefaultAsset.tags a));
    ("variations", VStrings (DefaultAsset.variations a));
    ("contents", VRecord (DefaultAsset.contents a)) ].

(** *** [path.basename] (POSIX flavour of Node's [path] module)

    Trailing slashes are dropped, then everything up to the last slash. *)
Definition is_slash (c : ascii) : bool := bool_decide (c = "/"%char).

Fixpoint drop_slashes (l : list ascii) : list ascii :=
  match l with
  | c :: l' => if is_slash c then drop_slashes l' else l
  | [] => []
  end.

Fixpoint take_segment (l : list ascii) : list ascii :=
  match l with
  | c :: l' => if is_slash c then [] else c :: take_segment l'
  | [] => []
  end.

Definition basename (path : string) : string :=
  string_of_list_ascii
    (rev (take_segment (drop_slashes (rev (list_ascii_of_string path))))).

(** ** The environment of a run

    Everything the script imports or reads from its surroundings.  The
    file system is read-only during a run. *)
Record Dirent := mkDirent { name : string; isDirectory : bool }.

Record Env := mkEnv {
  (** [__dirname] of the script *)
  dirname : string;
  (** [fs.readdirSync(dir, { withFileTypes: true })] *)
  fs_readdirSync : string → list Dirent;
  (** [fs.readFileSync(path, { encoding })]: the contents, or the error
      thrown for a missing or unreadable file *)
  fs_readFileSync : string → result string;
  (** [JSON.parse] at the two types the script annotates its results with;
      [Throw] for text that is not valid JSON *)
  JSON_parse_packs : string → result DefaultAssetPackResponse.t;
  JSON_parse_assets : string → result DefaultAssetResponse.t;
  (** [env.isProduction()] *)
  isProduction : bool;
  (** [new S3AssetPack(id).getThumbnailFilename()] *)
  getThumbnailFilename : string → string;
  (** [getDefaultEthAddress()] *)
  getDefaultEthAddress : string;
  (** the value of [new Date()] taken by [upsertAssetPacks] *)
  now : Z
}.

(** ** External operations, responses and the observable trace *)

(** The asynchronous calls the script makes. *)
Inductive Op :=
| S3AssetPack_checkFile (id filename : string)
| S3AssetPack_saveFile (id filename : string) (data : Buffer) (acl : ACL)
| AssetPack_upsert (attributes : Obj)
| Asset_upsert (attributes : Obj) (target : list string)
| S3Content_checkFile (cid : string)
| https_get (url : string)
| S3Content_saveFile (cid : string) (data : Buffer) (acl : ACL).

(** What [https.get] does after the request is sent.  Errors before a
    response (DNS, refused connection, TLS) are emitted as ['error'] on the
    request object; once a response arrives, its stream emits ['data'],
    ['end'] and ['error'] events. *)
Inductive ResponseEvent :=
| on_data (chunk : Buffer)
| on_end
| on_error (e : Error).

Inductive Transport :=
| request_error (e : Error)
| response (statusCode : nat) (events : list ResponseEvent).

(** How an external operation completes. *)
Inductive Response :=
| RBool (b : bool)
| RVoid
| RFail (e : Error)
| RHttp (t : Transport).

Inductive Action :=
| ALog (msg : string)              (* console.log *)
| AError (msg : string)            (* console.error *)
| AReadFile (path : string)        (* fs.readFileSync *)
| ACall (op : Op)                  (* an external operation is started *)
| AReturn (op : Op) (r : Response) (* ... and completes *)
| AFulfilled                       (* the task's promise is fulfilled *)
| ARejected (e : Error)            (* ... or rejected *)
| AUncaught (e : Error)            (* 'error' emitted with no listener *)
| AExit.                           (* process.exit() *)

Global Instance ACL_eq_dec : EqDecision ACL.
Proof. solve_decision. Defined.
Global Instance Op_eq_dec : EqDecision Op.
Proof. solve_decision. Defined.
Global Instance ResponseEvent_eq_dec : EqDecision ResponseEvent.
Proof. solve_decision. Defined.
Global Instance Transport_eq_dec : EqDecision Transport.
Proof. solve_decision. Defined.
Global Instance Response_eq_dec : EqDecision Response.
Proof. solve_decision. Defined.
Global Instance Action_eq_dec : EqDecision Action.
Proof. solve_decision. Defined.

(** ** Synchronous code that logs and reads files: the monad [W] *)
Record W (A : Type) := mkW { out : list Action; res : result A }.
Arguments mkW {A} out res.
Arguments out {A} w.
Arguments res {A} w.

Global Instance W_ret : MRet W := λ A a, mkW [] (Ok a).
Global Instance W_bind : MBind W := λ A B k m,
  match res m with
  | Ok a => mkW (out m ++ out (k a)) (res (k a))
  | Throw e => mkW (out m) (Throw e)
  end.

Definition emit (a : Action) : W unit := mkW [a] (Ok ()).
Definition throw {A} (e : Error) : W A := mkW [] (Throw e).
Definition of_result {A} (r : result A) : W A := mkW [] r.
Definition log (msg : string) : W unit := emit (ALog msg).

(** ** The fixture reader *)
Section fixtures.
Variable E : Env.

(** lines 199-204 *)
Definition getDirectories (source : string) : list string :=
  name <$> filter (λ directory, isDirectory directory) (fs_readdirSync E source).

(** [Array.prototype.sort()] without a comparator, on strings: ascending
    in the order of their code units. *)
Definition sort (l : list string) : list string := merge_sort String.le l.

(** [Array.prototype.pop()]: the last element, [undefined] if there is
    none. *)
Definition pop (l : list string) : option string := last l.

(** lines 193-197 *)
Definition getDataPath : string :=
  let dataDirectories := sort (getDirectories (dirname E)) in
  let lastData := pop dataDirectories in
  dirname E +:+ "/" +:+ template_string lastData.

(** lines 178-186 *)
Definition readFileSync (filename : string) (encoding : option string)
  : W string :=
  let dataPath := getDataPath in
  let path := dataPath +:+ "/" +:+ filename in
  log ("Reading file " +:+ path);;
  emit (AReadFile path);;
  of_result (fs_readFileSync E path).

(** lines 174-176; [JSON_parse] is [JSON.parse] at the annotated type *)
Definition readJSON {T} (JSON_parse : string → result T) (filename : string)
  : W T :=
  text ← readFileSync filename (Some "utf8");
  of_result (JSON_parse text).

(** lines 188-191 *)
Definition getAssetsUrl : string :=
  let domain := if isProduction E then "org" else "zone" in
  "https://assets.decentraland." +:+ domain.
End fixtures.

(** ** The remote content fetcher: [downloadAsset], lines 154-172 *)

(** lines 155-157 and the call at line 163: the request that is sent *)
Definition downloadAsset_request (E : Env) (cid : string) : W Op :=
  let url := getAssetsUrl E +:+ "/" +:+ cid in
  log ("Downloading " +:+ url);;
  mret (https_get url).

(** lines 159-171: the state of the promise executor *)
Record Executor := mkExecutor {
  chunks : list Buffer;
  file : Buffer;
  settled : promise Buffer
}.

Definition executor_init : Executor :=
  {| chunks := []; file := Buffer_concat []; settled := pending |}.

(** lines 164-169: the three listeners registered on the response *)
Definition response_listener (x : Executor) (ev : ResponseEvent) : Executor :=
  match ev with
  | on_data chunk =>
      {| chunks := chunks x ++ [chunk]; file := file x; settled := settled x |}
  | on_end =>
      let file := Buffer_concat (chunks x) in
      {| chunks := chunks x; file := file;
         settled := settle (settled x) (fulfilled file) |}
  | on_error error =>
      {| chunks := chunks x; file := file x;
         settled := settle (settled x) (rejected error) |}
  end.

(** What becomes of the promise returned by [downloadAsset]: it is left in
    some state by the response listeners, or, when the request itself emits
    ['error'], the event has no listener and the error is thrown out of the
    event loop. *)
Inductive Outcome :=
| promise_is (p : promise Buffer)
| uncaught (e : Error).

Definition downloadAsset_outcome (t : Transport) : Outcome :=
  match t with
  | request_error e => uncaught e
  | response _ events =>
      promise_is (settled (foldl response_listener executor_init events))
  end.

(** ** Tasks: the promise chains of the script *)

Inductive Kind :=
| ForPack (defaultAssetPack : DefaultAssetPack.t)
    (* uploadThumbnail(pack).then(...), lines 64-80 *)
| ForAsset (id : string) (defaultAttributes : DefaultAsset.t)
    (* new Asset(attributes).upsert(...), line 105 *)
| ForContent (cid : string).
    (* s3Content.checkFile(cid).then(...), lines 112-122 *)

(** Where a task is: waiting for an operation, waiting for its [then]
    callback to be run, or settled. *)
Inductive Pc :=
| Awaiting (op : Op)
| Queued (filename : string)
| Fulfilled
| Rejected (e : Error).

Global Instance Pc_eq_dec : EqDecision Pc.
Proof. solve_decision. Defined.

Record Task := mkTask { kind : Kind; pc : Pc }.

Definition call (op : Op) : W Pc := emit (ACall op);; mret (Awaiting op).

(** lines 66-72 *)
Definition assetPackAttributes (E : Env) (defaultAssetPack : DefaultAssetPack.t)
    (thumbnail : string) : Obj :=
  set "updated_at" (VDate (now E))
    (set "created_at" (VDate (now E))
      (set "eth_address" (VString (getDefaultEthAddress E))
        (set "thumbnail" (VString thumbnail)
          (omit (DefaultAssetPack_object defaultAssetPack) ["url"])))).

(** lines 94-101 *)
Definition assetAttributes (id : string) (defaultAttributes : DefaultAsset.t)
    : Obj :=
  let thumbnail := basename (DefaultAsset.thumbnail defaultAttributes) in
  set "asset_pack_id" (VString id)
    (set "model" (VString (DefaultAsset.url defaultAttributes))
      (set "thumbnail" (VString thumbnail)
        (omit (DefaultAsset_object defaultAttributes) ["variations"; "url"]))).

Inductive Resumption :=
| Resume (w : W Pc)
| Crash (e : Error)
| NotEnabled.

(** The code that runs when the awaited operation [op] of a task completes
    with response [r].  The local variables of the enclosing function
    ([attributes], [filename], [cid]) are those the task was created with. *)
Definition resume (E : Env) (k : Kind) (op : Op) (r : Response) : Resumption :=
  match k, op, r with
  (* uploadThumbnail, lines 142-151 *)
  | ForPack attributes, S3AssetPack_checkFile _ _, RBool exists_ =>
      let id := DefaultAssetPack.id attributes in
      let filename := getThumbnailFilename E id in
      Resume (
        if exists_ then
          log "Thumbnail already exists in S3";;
          mret (Queued filename)
        else
          currentThumbnail ← readFileSync E filename None;
          log "Uploading thumbnail to S3";;
          call (S3AssetPack_saveFile id filename currentThumbnail publicRead))
  | ForPack attributes, S3AssetPack_saveFile _ _ _ _, RVoid =>
      let filename := getThumbnailFilename E (DefaultAssetPack.id attributes) in
      Resume (mret (Queued filename))
  | ForPack _, AssetPack_upsert _, RVoid => Resume (mret Fulfilled)
  (* line 105 *)
  | ForAsset _ _, Asset_upsert _ _, RVoid => Resume (mret Fulfilled)
  (* lines 112-122 *)
  | ForContent cid, S3Content_checkFile _, RBool exists_ =>
      Resume (
        if exists_ then
          log ("File " +:+ cid +:+ " already exists in S3");;
          mret Fulfilled
        else
          request ← downloadAsset_request E cid;
          call request)
  | ForContent cid, https_get _, RHttp t =>
      match downloadAsset_outcome t with
      | promise_is (fulfilled file) =>
          Resume (
            log ("Uploading file " +:+ cid +:+ " to S3");;
            call (S3Content_saveFile cid file publicRead))
      | promise_is (rejected e) => Resume (throw e)
      | promise_is pending => NotEnabled
      | uncaught e => Crash e
      end
  | ForContent cid, S3Content_saveFile _ _ _, RVoid =>
      Resume (
        log ("File " +:+ cid +:+ " uploaded successfully");;
        mret Fulfilled)
  (* an operation that fails rejects the promise the task awaits *)
  | ForPack _, (S3AssetPack_checkFile _ _ | S3AssetPack_saveFile _ _ _ _
               | AssetPack_upsert _), RFail e => Resume (throw e)
  | ForAsset _ _, Asset_upsert _ _, RFail e => Resume (throw e)
  | ForContent _, (S3Content_checkFile _ | S3Content_saveFile _ _ _), RFail e =>
      Resume (throw e)
  | _, _, _ => NotEnabled
  end.

(** The [then] callback of a pack task, lines 65-79, run with the filename
    [uploadThumbnail] returned. *)
Definition continue (E : Env) (k : Kind) (thumbnail : string) : option (W Pc) :=
  match k with
  | ForPack defaultAssetPack =>
      let attributes := assetPackAttributes E defaultAssetPack thumbnail in
      Some (
        log ("Upserting asset pack " +:+ template (get "id" attributes)
             +:+ " for user " +:+ template (get "eth_address" attributes));;
        call (AssetPack_upsert attributes))
  | _ => None
  end.

(** ** The world the script acts on

    Modelled from the spec: the object store is one bucket addressed by key,
    with an existence check and a write per client shape (section 4.3); the
    persistence client's [upsert] inserts a record when no record agrees with
    it on the conflict target and otherwise updates that record in place
    (section 4.4).  The classes themselves ([S3AssetPack], [S3Content],
    [AssetPack], [Asset]) live outside this script. *)
Inductive Key :=
| ThumbnailKey (id filename : string)
| ContentKey (cid : string).

Global Instance Key_eq_dec : EqDecision Key.
Proof. solve_decision. Defined.

Global Instance Key_countable : Countable Key.
Proof.
  refine (inj_countable'
    (λ k, match k with
          | ThumbnailKey id filename => inl (id, filename)
          | ContentKey cid => inr cid
          end)
    (λ x, match x with
          | inl (id, filename) => ThumbnailKey id filename
          | inr cid => ContentKey cid
          end) _).
  by intros [].
Defined.

Definition row_key (target : list string) (row : Obj) : list (option Value) :=
  (λ column, get column row) <$> target.

Fixpoint upsert (target : list string) (row : Obj) (table : list Obj)
    : list Obj :=
  match table with
  | [] => [row]
  | r :: table' =>
      if decide (row_key target r = row_key target row)
      then row :: table'
      else r :: upsert target row table'
  end.

Record World := mkWorld {
  bucket : gmap Key (Buffer * ACL);
  asset_packs : list Obj;
  assets : list Obj
}.

(** The key of an object-store operation. *)
Definition op_key (op : Op) : option Key :=
  match op with
  | S3AssetPack_checkFile id filename
  | S3AssetPack_saveFile id filename _ _ => Some (ThumbnailKey id filename)
  | S3Content_checkFile cid
  | S3Content_saveFile cid _ _ => Some (ContentKey cid)
  | _ => None
  end.

(** The effect of an operation that completes with [r]; only a successful
    write or upsert changes the world. *)
Definition effect (op : Op) (r : Response) (w : World) : World :=
  match r, op with
  | RVoid, S3AssetPack_saveFile id filename data acl =>
      {| bucket := <[ThumbnailKey id filename := (data, acl)]> (bucket w);
         asset_packs := asset_packs w; assets := assets w |}
  | RVoid, S3Content_saveFile cid data acl =>
      {| bucket := <[ContentKey cid := (data, acl)]> (bucket w);
         asset_packs := asset_packs w; assets := assets w |}
  | RVoid, AssetPack_upsert attributes =>
      {| bucket := bucket w;
         asset_packs := upsert ["id"] attributes (asset_packs w);
         assets := assets w |}
  | RVoid, Asset_upsert attributes target =>
      {| bucket := bucket w;
         asset_packs := asset_packs w;
         assets := upsert target attributes (assets w) |}
  | _, _ => w
  end.

(** An existence check is truthful when it reports what the bucket holds. *)
Definition truthful (w : World) (op : Op) (r : Response) : Prop :=
  match op, r with
  | S3AssetPack_checkFile id filename, RBool b =>
      b = bool_decide (ThumbnailKey id filename ∈ dom (bucket w))
  | S3Content_checkFile cid, RBool b =>
      b = bool_decide (ContentKey cid ∈ dom (bucket w))
  | _, _ => True
  end.

(** ** Synchronous code that also creates promises: the monad [M]

    A computation is run with the identifier the next task will get, and
    yields the trace entries it makes and the tasks it creates.  An entry is
    tagged with the task it belongs to ([None] for the main function; the
    call that creates a task is tagged with that task). *)
Definition Entry : Type := option nat * Action.

Record Out (A : Type) := mkOut {
  entries : list Entry;
  spawned : list Task;
  value : result A
}.
Arguments mkOut {A} entries spawned value.
Arguments entries {A} o.
Arguments spawned {A} o.
Arguments value {A} o.

Record M (A : Type) := mkM { runM : nat → Out A }.
Arguments mkM {A} runM.
Arguments runM {A} m next.

Global Instance M_ret : MRet M := λ A a, mkM (λ _, mkOut [] [] (Ok a)).
Global Instance M_bind : MBind M := λ A B k m,
  mkM (λ next,
    let o1 := runM m next in
    match value o1 with
    | Ok a =>
        let o2 := runM (k a) (next + length (spawned o1)) in
        mkOut (entries o1 ++ entries o2) (spawned o1 ++ spawned o2) (value o2)
    | Throw e => mkOut (entries o1) (spawned o1) (Throw e)
    end).

(** Code of [W] run by the main function. *)
Definition lift {A} (w : W A) : M A :=
  mkM (λ _, mkOut ((λ a, (None, a)) <$> out w) [] (res w)).

(** Start operation [op]; the promise chain hanging off it is task [k]. *)
Definition spawn (k : Kind) (op : Op) : M unit :=
  mkM (λ next, mkOut [(Some next, ACall op)] [mkTask k (Awaiting op)] (Ok ())).

(** [try { body } catch (error) { handler(error) }] *)
Definition try_catch {A} (body : M A) (handler : Error → M A) : M A :=
  mkM (λ next,
    let o1 := runM body next in
    match value o1 with
    | Ok a => o1
    | Throw e =>
        let o2 := runM (handler e) (next + length (spawned o1)) in
        mkOut (entries o1 ++ entries o2) (spawned o1 ++ spawned o2) (value o2)
    end).

(** [for (const x of l) { f x }] *)
Fixpoint for_of {A} (l : list A) (f : A → M unit) : M unit :=
  match l with
  | [] => mret ()
  | x :: l' => f x;; for_of l' f
  end.

(** ** The seeding orchestrator *)
Section orchestrator.
Variable E : Env.

(** lines 138-142, up to the first [await]; the rest of the function is
    in [resume]. *)
Definition uploadThumbnail (attributes : DefaultAssetPack.t) : M unit :=
  let id := DefaultAssetPack.id attributes in
  let filename := getThumbnailFilename E id in
  spawn (ForPack attributes) (S3AssetPack_checkFile id filename).

(** lines 59-84, up to the [await]; every promise created is pushed onto
    [assetPackUpserts]. *)
Definition upsertAssetPacks (assetPacks : list DefaultAssetPack.t) : M unit :=
  for_of assetPacks (λ defaultAssetPack, uploadThumbnail defaultAssetPack).

(** [attributes.contents] of the attribute object *)
Definition contents_of (attributes : Obj) : M (list (string * string)) :=
  match get "contents" attributes with
  | Some (VRecord contents) => mret contents
  | _ => lift (throw "Cannot convert undefined or null to object")
  end.

(** lines 89-131, one iteration of the loop over the packs up to its
    [await]; every promise created is pushed onto [assetPromises]. *)
Definition upsertAssets_iteration (id : string) : M unit :=
  assetsResponse ← lift (readJSON E (JSON_parse_assets E) (id +:+ ".json"));
  let assets :=
    DefaultAssetResponse.assets (DefaultAssetResponse.data assetsResponse) in
  for_of assets (λ defaultAttributes,
    let attributes := assetAttributes id defaultAttributes in
    lift (log ("Upserting asset " +:+ template (get "id" attributes)
               +:+ " for asset pack " +:+ id));;
    spawn (ForAsset id defaultAttributes)
          (Asset_upsert attributes ["id"; "asset_pack_id"]);;
    try_catch
      (contents ← contents_of attributes;
       for_of (Object_values contents) (λ cid,
         spawn (ForContent cid) (S3Content_checkFile cid)))
      (λ error, lift (log ("Ignoring ERROR: " +:+ error)))).

(** Where the main function goes next. *)
Inductive Next :=
| NextAwaitPacks (assetPacks : list DefaultAssetPack.t)
| NextAwaitAssets (rest : list DefaultAssetPack.t)
| NextDone.

(** lines 49-53, up to [await Promise.all(assetPackUpserts)] *)
Definition seed_start : M Next :=
  packsResponse ← lift (readJSON E (JSON_parse_packs E) "packs.json");
  let assetPacks :=
    DefaultAssetPackResponse.packs
      (DefaultAssetPackResponse.data packsResponse) in
  lift (log "==== Asset packs ====");;
  upsertAssetPacks assetPacks;;
  mret (NextAwaitPacks assetPacks).

(** line 88: the loop of [upsertAssets] over the remaining packs *)
Definition upsertAssets_loop (packs : list DefaultAssetPack.t) : M Next :=
  match packs with
  | [] => mret NextDone
  | pack :: rest =>
      upsertAssets_iteration (DefaultAssetPack.id pack);;
      mret (NextAwaitAssets rest)
  end.

(** lines 55-56 *)
Definition seed_assets (assetPacks : list DefaultAssetPack.t) : M Next :=
  lift (log "==== Assets ====");;
  upsertAssets_loop assetPacks.

(** lines 132-134 and back to line 88 *)
Definition upsertAssets_catch (error : Error)
    (rest : list DefaultAssetPack.t) : M Next :=
  lift (log ("Error saving assets: " +:+ error));;
  upsertAssets_loop rest.
End orchestrator.

(** ** The transition system *)

(** [Promise.all(members)]: rejected by the first member that rejects,
    fulfilled once every member is. *)
Record PromiseAll := mkAll { members : list nat; outcome : promise unit }.

Inductive Main :=
| Start
| AwaitPacks (assetPacks : list DefaultAssetPack.t) (all : PromiseAll)
| AwaitAssets (rest : list DefaultAssetPack.t) (all : PromiseAll)
| Exited (ok : bool)
| Crashed.

Record State := mkState {
  main : Main;
  tasks : list Task;
  world : World;
  trace : list Entry
}.

Definition init (w : World) : State :=
  {| main := Start; tasks := []; world := w; trace := [] |}.

Inductive Label :=
| Deliver (tid : nat) (r : Response)  (* the operation task [tid] awaits completes *)
| Continue (tid : nat)                (* the queued callback of task [tid] runs *)
| MainResume.                         (* the main function runs on *)

Definition is_fulfilled (ts : list Task) (tid : nat) : bool :=
  match ts !! tid with
  | Some t => bool_decide (pc t = Fulfilled)
  | None => false
  end.

Definition Promise_all_notify (tid : nat) (pc' : Pc) (ts : list Task)
    (all : PromiseAll) : PromiseAll :=
  if decide (tid ∈ members all) then
    match pc' with
    | Rejected e =>
        {| members := members all;
           outcome := settle (outcome all) (rejected e) |}
    | Fulfilled =>
        if forallb (is_fulfilled ts) (members all)
        then {| members := members all;
                outcome := settle (outcome all) (fulfilled ()) |}
        else all
    | _ => all
    end
  else all.

Definition notify (tid : nat) (pc' : Pc) (ts : list Task) (m : Main) : Main :=
  match m with
  | AwaitPacks assetPacks all =>
      AwaitPacks assetPacks (Promise_all_notify tid pc' ts all)
  | AwaitAssets rest all =>
      AwaitAssets rest (Promise_all_notify tid pc' ts all)
  | _ => m
  end.

Definition settled_entry (pc' : Pc) : list Action :=
  match pc' with
  | Fulfilled => [AFulfilled]
  | Rejected e => [ARejected e]
  | _ => []
  end.

Definition next_pc (w : W Pc) : Pc :=
  match res w with
  | Ok pc' => pc'
  | Throw e => Rejected e
  end.

(** Task [tid] runs [w]; [pre] is what is observed just before. *)
Definition run_task (st : State) (tid : nat) (k : Kind) (pre : list Action)
    (w : W Pc) (world' : World) : State :=
  let pc' := next_pc w in
  let tasks' := <[tid := mkTask k pc']> (tasks st) in
  {| main := notify tid pc' tasks' (main st);
     tasks := tasks';
     world := world';
     trace := trace st ++
              ((λ a, (Some tid, a)) <$> (pre ++ out w ++ settled_entry pc')) |}.

(** The main function runs [m] up to its next [await]; the promises [m]
    creates are the members of the [Promise.all] it then awaits.  An error
    thrown by [m] rejects [seed()] and reaches the [catch] of line 213; when
    the loop is over, line 209 runs. *)
Definition last_words (v : result Next) : list Action :=
  match v with
  | Throw e => [AError e; AExit]
  | Ok NextDone => [ALog "All done!"; AExit]
  | Ok _ => []
  end.

Definition next_main (v : result Next) (all : PromiseAll) : Main :=
  match v with
  | Throw e => Exited false
  | Ok NextDone => Exited true
  | Ok (NextAwaitPacks assetPacks) => AwaitPacks assetPacks all
  | Ok (NextAwaitAssets rest) => AwaitAssets rest all
  end.

Definition run_main (st : State) (m : M Next) : State :=
  let next := length (tasks st) in
  let o := runM m next in
  let all :=
    {| members := seq next (length (spawned o));
       outcome := match spawned o with [] => fulfilled () | _ => pending end |} in
  {| main := next_main (value o) all;
     tasks := tasks st ++ spawned o;
     world := world st;
     trace := trace st ++ entries o ++ ((λ a, (None, a)) <$> last_words (value o)) |}.

Definition exit_with_error (st : State) (e : Error) : State :=
  {| main := Exited false; tasks := tasks st; world := world st;
     trace := trace st ++ [(None, AError e); (None, AExit)] |}.

Definition step_main (E : Env) (st : State) : option State :=
  match main st with
  | Start => Some (run_main st (seed_start E))
  | AwaitPacks assetPacks all =>
      match outcome all with
      | pending => None
      | fulfilled _ => Some (run_main st (seed_assets E assetPacks))
      | rejected e => Some (exit_with_error st e)
      end
  | AwaitAssets rest all =>
      match outcome all with
      | pending => None
      | fulfilled _ => Some (run_main st (upsertAssets_loop E rest))
      | rejected e => Some (run_main st (upsertAssets_catch E e rest))
      end
  | Exited _ | Crashed => None
  end.

Definition running (st : State) : bool :=
  match main st with
  | Exited _ | Crashed => false
  | _ => true
  end.

Definition step (E : Env) (l : Label) (st : State) : option State :=
  if running st then
    match l with
    | Deliver tid r =>
        t ← tasks st !! tid;
        match pc t with
        | Awaiting op =>
            match resume E (kind t) op r with
            | Resume w =>
                Some (run_task st tid (kind t) [AReturn op r] w
                        (effect op r (world st)))
            | Crash e =>
                Some {| main := Crashed; tasks := tasks st; world := world st;
                        trace := trace st ++ [(Some tid, AReturn op r);
                                              (Some tid, AUncaught e)] |}
            | NotEnabled => None
            end
        | _ => None
        end
    | Continue tid =>
        t ← tasks st !! tid;
        match pc t with
        | Queued filename =>
            w ← continue E (kind t) filename;
            Some (run_task st tid (kind t) [] w (world st))
        | _ => None
        end
    | MainResume => step_main E st
    end
  else None.

Fixpoint run (E : Env) (st : State) (ls : list Label) : option State :=
  match ls with
  | [] => Some st
  | l :: ls' => st' ← step E l st; run E st' ls'
  end.

(** ** Notions used in the statements *)

(** The actions of task [tid] in a trace, in order. *)
Definition proj (tid : nat) (tr : list Entry) : list Action :=
  omap (λ e : Entry, if decide (e.1 = Some tid) then Some e.2 else None) tr.

(** The actions of the main function in a trace, in order. *)
Definition main_actions (tr : list Entry) : list Action :=
  omap (λ e : Entry, if decide (e.1 = None) then Some e.2 else None) tr.

(** The operation a task of kind [k] is created with. *)
Definition first_op (E : Env) (k : Kind) : Op :=
  match k with
  | ForPack attributes =>
      let id := DefaultAssetPack.id attributes in
      S3AssetPack_checkFile id (getThumbnailFilename E id)
  | ForAsset id defaultAttributes =>
      Asset_upsert (assetAttributes id defaultAttributes) ["id"; "asset_pack_id"]
  | ForContent cid => S3Content_checkFile cid
  end.

(** The calls that create the tasks [ts], the first of which gets the
    identifier [next]. *)
Fixpoint calls_of (E : Env) (next : nat) (ts : list Task) : list Entry :=
  match ts with
  | [] => []
  | t :: ts' => (Some next, ACall (first_op E (kind t))) :: calls_of E (S next) ts'
  end.

(** What a task of kind [k] can have done when it is at [pc]. *)
Inductive history (E : Env) (k : Kind) : Pc → list Action → Prop :=
| history_spawn :
    history E k (Awaiting (first_op E k)) [ACall (first_op E k)]
| history_resume op r w h :
    history E k (Awaiting op) h →
    resume E k op r = Resume w →
    history E k (next_pc w)
      (h ++ AReturn op r :: out w ++ settled_entry (next_pc w))
| history_continue filename w h :
    history E k (Queued filename) h →
    continue E k filename = Some w →
    history E k (next_pc w) (h ++ out w ++ settled_entry (next_pc w)).

(** ... including the task whose unhandled error ended the process. *)
Definition lifeline (E : Env) (m : Main) (k : Kind) (pc : Pc)
    (h : list Action) : Prop :=
  history E k pc h ∨
  (m = Crashed ∧
   ∃ h0 op r e, pc = Awaiting op ∧ history E k pc h0 ∧
     resume E k op r = Crash e ∧ h = h0 ++ [AReturn op r; AUncaught e]).

(** What the main function itself does. *)
Definition main_action (a : Action) : Prop :=
  match a with
  | ALog _ | AReadFile _ | AError _ | AExit => True
  | _ => False
  end.

(** The output of a piece of main-function code is tidy when the tasks it
    creates start at their first operation, the entries it tags with a task
    are exactly the calls creating these tasks, and its own actions are logs
    and file reads. *)
Record tidy (E : Env) (next : nat) {A} (o : Out A) : Prop := mkTidy {
  tidy_spawned :
    Forall (λ t, pc t = Awaiting (first_op E (kind t))) (spawned o);
  tidy_calls :
    filter (λ e : Entry, is_Some e.1) (entries o) = calls_of E next (spawned o);
  tidy_main :
    Forall (λ a, ∃ s, a = ALog s ∨ a = AReadFile s) (main_actions (entries o))
}.

(** The states reached from a fresh start in world [w]. *)
Definition reachable (E : Env) (w : World) (st : State) : Prop :=
  ∃ ls, run E (init w) ls = Some st.

(** The code the main function runs next, when it can run. *)
Definition main_code (E : Env) (st : State) : option (M Next) :=
  match main st with
  | Start => Some (seed_start E)
  | AwaitPacks assetPacks all =>
      match outcome all with
      | fulfilled _ => Some (seed_assets E assetPacks)
      | _ => None
      end
  | AwaitAssets rest all =>
      match outcome all with
      | pending => None
      | fulfilled _ => Some (upsertAssets_loop E rest)
      | rejected e => Some (upsertAssets_catch E e rest)
      end
  | _ => None
  end.

(** The steps of the transition system, as a relation. *)
Inductive Step (E : Env) (st : State) : State → Prop :=
| Step_resume tid r t op w :
    running st = true → tasks st !! tid = Some t → pc t = Awaiting op →
    resume E (kind t) op r = Resume w →
    Step E st (run_task st tid (kind t) [AReturn op r] w (effect op r (world st)))
| Step_crash tid r t op e :
    running st = true → tasks st !! tid = Some t → pc t = Awaiting op →
    resume E (kind t) op r = Crash e →
    Step E st {| main := Crashed; tasks := tasks st; world := world st;
                 trace := trace st ++ [(Some tid, AReturn op r);
                                       (Some tid, AUncaught e)] |}
| Step_continue tid t filename w :
    running st = true → tasks st !! tid = Some t → pc t = Queued filename →
    continue E (kind t) filename = Some w →
    Step E st (run_task st tid (kind t) [] w (world st))
| Step_main m :
    main_code E st = Some m → Step E st (run_main st m)
| Step_exit assetPacks all e :
    main st = AwaitPacks assetPacks all → outcome all = rejected e →
    Step E st (exit_with_error st e).

(** Every task has a lifeline, every entry belongs to a task that exists or
    to the main function. *)
Record wf_histories (E : Env) (st : State) : Prop := mkWf {
  wf_bound : ∀ tid a, (Some tid, a) ∈ trace st → tid < length (tasks st);
  wf_lifeline : ∀ tid t, tasks st !! tid = Some t →
    lifeline E (main st) (kind t) (pc t) (proj tid (trace st));
  wf_main : Forall main_action (main_actions (trace st))
}.

(** *** What the histories of the three kinds of task look like *)
Section shapes.
Variable E : Env.

Definition content_url (cid : string) : string := getAssetsUrl E +:+ "/" +:+ cid.

Definition content_checked (cid : string) : list Action :=
  [ACall (S3Content_checkFile cid)].

Definition content_requested (cid : string) : list Action :=
  content_checked cid ++
  [AReturn (S3Content_checkFile cid) (RBool false);
   ALog ("Downloading " +:+ content_url cid);
   ACall (https_get (content_url cid))].

Definition content_uploading (cid : string) (t : Transport) (file : Buffer)
    : list Action :=
  content_requested cid ++
  [AReturn (https_get (content_url cid)) (RHttp t);
   ALog ("Uploading file " +:+ cid +:+ " to S3");
   ACall (S3Content_saveFile cid file publicRead)].

Definition content_shape (cid : string) (pc : Pc) (h : list Action) : Prop :=
  match pc with
  | Awaiting op =>
      (op = S3Content_checkFile cid ∧ h = content_checked cid) ∨
      (op = https_get (content_url cid) ∧ h = content_requested cid) ∨
      (∃ t file, downloadAsset_outcome t = promise_is (fulfilled file) ∧
         op = S3Content_saveFile cid file publicRead ∧
         h = content_uploading cid t file)
  | Queued _ => False
  | Fulfilled =>
      h = content_checked cid ++
          [AReturn (S3Content_checkFile cid) (RBool true);
           ALog ("File " +:+ cid +:+ " already exists in S3"); AFulfilled] ∨
      (∃ t file, downloadAsset_outcome t = promise_is (fulfilled file) ∧
         h = content_uploading cid t file ++
             [AReturn (S3Content_saveFile cid file publicRead) RVoid;
              ALog ("File " +:+ cid +:+ " uploaded successfully"); AFulfilled])
  | Rejected e =>
      h = content_checked cid ++
          [AReturn (S3Content_checkFile cid) (RFail e); ARejected e] ∨
      (∃ t, downloadAsset_outcome t = promise_is (rejected e) ∧
         h = content_requested cid ++
             [AReturn (https_get (content_url cid)) (RHttp t); ARejected e]) ∨
      (∃ t file, downloadAsset_outcome t = promise_is (fulfilled file) ∧
         h = content_uploading cid t file ++
             [AReturn (S3Content_saveFile cid file publicRead) (RFail e);
              ARejected e])
  end.

Definition pack_id (p : DefaultAssetPack.t) : string := DefaultAssetPack.id p.
Definition pack_filename (p : DefaultAssetPack.t) : string :=
  getThumbnailFilename E (DefaultAssetPack.id p).
Definition pack_path (p : DefaultAssetPack.t) : string :=
  getDataPath E +:+ "/" +:+ pack_filename p.
Definition pack_check (p : DefaultAssetPack.t) : Op :=
  S3AssetPack_checkFile (pack_id p) (pack_filename p).
Definition pack_save (p : DefaultAssetPack.t) (data : Buffer) : Op :=
  S3AssetPack_saveFile (pack_id p) (pack_filename p) data publicRead.
Definition pack_upsert (p : DefaultAssetPack.t) : Op :=
  AssetPack_upsert (assetPackAttributes E p (pack_filename p)).

Definition pack_checked (p : DefaultAssetPack.t) : list Action :=
  [ACall (pack_check p)].

Definition pack_read (p : DefaultAssetPack.t) : list Action :=
  pack_checked p ++
  [AReturn (pack_check p) (RBool false);
   ALog ("Reading file " +:+ pack_path p);
   AReadFile (pack_path p)].

Definition pack_saving (p : DefaultAssetPack.t) (data : Buffer) : list Action :=
  pack_read p ++ [ALog "Uploading thumbnail to S3"; ACall (pack_save p data)].

(** the two ways [uploadThumbnail] returns *)
Definition pack_returned (p : DefaultAssetPack.t) (h : list Action) : Prop :=
  h = pack_checked p ++
      [AReturn (pack_check p) (RBool true);
       ALog "Thumbnail already exists in S3"] ∨
  (∃ data, fs_readFileSync E (pack_path p) = Ok data ∧
     h = pack_saving p data ++ [AReturn (pack_save p data) RVoid]).

Definition pack_upserting (p : DefaultAssetPack.t) (h : list Action)
    : list Action :=
  h ++
  [ALog ("Upserting asset pack "
         +:+ template (get "id" (assetPackAttributes E p (pack_filename p)))
         +:+ " for user "
         +:+ template (get "eth_address"
                         (assetPackAttributes E p (pack_filename p))));
   ACall (pack_upsert p)].

Definition pack_shape (p : DefaultAssetPack.t) (pc : Pc) (h : list Action)
    : Prop :=
  match pc with
  | Awaiting op =>
      (op = pack_check p ∧ h = pack_checked p) ∨
      (∃ data, fs_readFileSync E (pack_path p) = Ok data ∧
         op = pack_save p data ∧ h = pack_saving p data) ∨
      (∃ h0, pack_returned p h0 ∧ op = pack_upsert p ∧
         h = pack_upserting p h0)
  | Queued filename => filename = pack_filename p ∧ pack_returned p h
  | Fulfilled =>
      ∃ h0, pack_returned p h0 ∧
        h = pack_upserting p h0 ++ [AReturn (pack_upsert p) RVoid; AFulfilled]
  | Rejected e =>
      h = pack_checked p ++ [AReturn (pack_check p) (RFail e); ARejected e] ∨
      (fs_readFileSync E (pack_path p) = Throw e ∧
         h = pack_read p ++ [ARejected e]) ∨
      (∃ data, fs_readFileSync E (pack_path p) = Ok data ∧
         h = pack_saving p data ++
             [AReturn (pack_save p data) (RFail e); ARejected e]) ∨
      (∃ h0, pack_returned p h0 ∧
         h = pack_upserting p h0 ++
             [AReturn (pack_upsert p) (RFail e); ARejected e])
  end.

Definition asset_upsert (id : string) (a : DefaultAsset.t) : Op :=
  Asset_upsert (assetAttributes id a) ["id"; "asset_pack_id"].

Definition asset_shape (id : string) (a : DefaultAsset.t) (pc : Pc)
    (h : list Action) : Prop :=
  match pc with
  | Awaiting op => op = asset_upsert id a ∧ h = [ACall (asset_upsert id a)]
  | Queued _ => False
  | Fulfilled =>
      h = [ACall (asset_upsert id a); AReturn (asset_upsert id a) RVoid;
           AFulfilled]
  | Rejected e =>
      h = [ACall (asset_upsert id a); AReturn (asset_upsert id a) (RFail e);
           ARejected e]
  end.

Definition shape (k : Kind) : Pc → list Action → Prop :=
  match k with
  | ForPack p => pack_shape p
  | ForAsset id a => asset_shape id a
  | ForContent cid => content_shape cid
  end.
End shapes.

(** Code of the main function all of whose outputs are tidy. *)
Definition Tidy (E : Env) {A} (m : M A) : Prop :=
  ∀ next, tidy E next (runM m next).

(** ** A small installation, used to exercise the statements

    Two dated data directories; the newer one holds [packs.json] with two
    packs, the asset files of both and the thumbnail of the first. *)
Definition example_pack1 : DefaultAssetPack.t :=
  DefaultAssetPack.mk "p1" "Pack" "http://x/t.png" "t.png".

Definition example_pack2 : DefaultAssetPack.t :=
  DefaultAssetPack.mk "p2" "Other pack" "http://x/t2.png" "t2.png".

Definition example_asset1 : DefaultAsset.t :=
  DefaultAsset.mk "a1" "Asset" "http://x/thumbs/a1.png" "http://x/m.glb"
    "decorations" ["tree"] ["a1b"] [("model.glb", "hash1"); ("tex.png", "hash2")].

Definition example_asset2 : DefaultAsset.t :=
  DefaultAsset.mk "a2" "Other asset" "a2.png" "http://x/m2.glb"
    "decorations" [] [] [].

Definition example_files : list (string * string) :=
  [ ("/seed/2020-02/packs.json", "PACKS");
    ("/seed/2020-02/p1.json", "ASSETS1");
    ("/seed/2020-02/p2.json", "ASSETS2");
    ("/seed/2020-02/p1.png", "png1") ].

Fixpoint lookup_file (files : list (string * string)) (path : string)
    : result string :=
  match files with
  | [] => Throw ("ENOENT: no such file or directory, open '" +:+ path +:+ "'")
  | (p, text) :: files' =>
      if decide (p = path) then Ok text else lookup_file files' path
  end.

Definition example_env : Env := {|
  dirname := "/seed";
  fs_readdirSync := λ dir,
    if decide (dir = "/seed")
    then [mkDirent "2020-01" true; mkDirent "2020-02" true;
          mkDirent "index.ts" false; mkDirent "1999-12" true]
    else [];
  fs_readFileSync := lookup_file example_files;
  JSON_parse_packs := λ text,
    if decide (text = "PACKS")
    then Ok (DefaultAssetPackResponse.mk true
               (DefaultAssetPackResponse.mk_data [example_pack1; example_pack2]))
    else Throw "Unexpected token";
  JSON_parse_assets := λ text,
    if decide (text = "ASSETS1")
    then Ok (DefaultAssetResponse.mk true
               (DefaultAssetResponse.mk_data "p1" 1 "Pack"
                  [example_asset1; example_asset2]))
    else if decide (text = "ASSETS2")
    then Ok (DefaultAssetResponse.mk true
               (DefaultAssetResponse.mk_data "p2" 1 "Other pack" []))
    else Throw "Unexpected token";
  isProduction := false;
  getThumbnailFilename := λ id, id +:+ ".png";
  getDefaultEthAddress := "0xdefault";
  now := 1600000000000
|}.

(** The same installation with no data directory at all. *)
Definition bare_env : Env := {|
  dirname := "/seed";
  fs_readdirSync := λ dir, [mkDirent "index.ts" false];
  fs_readFileSync := lookup_file [];
  JSON_parse_packs := JSON_parse_packs example_env;
  JSON_parse_assets := JSON_parse_assets example_env;
  isProduction := false;
  getThumbnailFilename := getThumbnailFilename example_env;
  getDefaultEthAddress := "0xdefault";
  now := 1600000000000
|}.

Definition empty_world : World :=
  {| bucket := ∅; asset_packs := []; assets := [] |}.

(** The history of a task, as the reachable states show it: one of the
    shapes above, or the request that ended the process. *)
Definition trail (E : Env) (k : Kind) (pc : Pc) (h : list Action) : Prop :=
  shape E k pc h ∨
  ∃ cid e, k = ForContent cid ∧
    pc = Awaiting (https_get (content_url E cid)) ∧
    h = content_requested E cid ++
        [AReturn (https_get (content_url E cid)) (RHttp (request_error e));
         AUncaught e].

(** *** What the loops of the main function produce *)

(** The tasks created for the packs, line 64. *)
Definition pack_tasks (E : Env) (assetPacks : list DefaultAssetPack.t)
    : list Task :=
  (λ p, mkTask (ForPack p) (Awaiting (first_op E (ForPack p)))) <$> assetPacks.

(** The tasks created for one asset: its upsert (line 105), then one task
    per content identifier (line 112). *)
Definition asset_tasks (E : Env) (id : string) (a : DefaultAsset.t)
    : list Task :=
  mkTask (ForAsset id a) (Awaiting (first_op E (ForAsset id a))) ::
  ((λ cid, mkTask (ForContent cid) (Awaiting (first_op E (ForContent cid))))
     <$> Object_values (DefaultAsset.contents a)).

(** The entries of the loop over the assets of pack [id], lines 93-129. *)
Fixpoint iteration_entries (E : Env) (id : string) (next : nat)
    (assets : list DefaultAsset.t) : list Entry :=
  match assets with
  | [] => []
  | a :: assets' =>
      (None, ALog ("Upserting asset " +:+ DefaultAsset.id a
                   +:+ " for asset pack " +:+ id)) ::
      calls_of E next (asset_tasks E id a) ++
      iteration_entries E id (next + length (asset_tasks E id a)) assets'
  end.

(** The packs of [packs.json] and the assets of [<id>.json], when the files
    can be read and parsed. *)
Definition fixture_packs (E : Env) : result (list DefaultAssetPack.t) :=
  match res (readJSON E (JSON_parse_packs E) "packs.json") with
  | Ok packsResponse =>
      Ok (DefaultAssetPackResponse.packs
            (DefaultAssetPackResponse.data packsResponse))
  | Throw e => Throw e
  end.

Definition fixture_assets (E : Env) (id : string) : result (list DefaultAsset.t) :=
  match res (readJSON E (JSON_parse_assets E) (id +:+ ".json")) with
  | Ok assetsResponse =>
      Ok (DefaultAssetResponse.assets (DefaultAssetResponse.data assetsResponse))
  | Throw e => Throw e
  end.

(** The two entries of a fixture read by the main function. *)
Definition fixture_read (E : Env) (filename : string) : list Entry :=
  [(None, ALog ("Reading file " +:+ getDataPath E +:+ "/" +:+ filename));
   (None, AReadFile (getDataPath E +:+ "/" +:+ filename))].

(** The asset upserts started in a trace: attributes and conflict target. *)
Definition asset_upserts (tr : list Entry) : list (Obj * list string) :=
  omap (λ e : Entry,
          match e.2 with
          | ACall (Asset_upsert attributes target) => Some (attributes, target)
          | _ => None
          end) tr.

(** *** Where tasks come from *)

(** A task is made for a pack of [packs.json], for an asset of the file of
    such a pack, or for a content identifier of such an asset. *)
Definition from_fixtures (E : Env) (k : Kind) : Prop :=
  match k with
  | ForPack p => ∃ packs, fixture_packs E = Ok packs ∧ p ∈ packs
  | ForAsset id a =>
      ∃ packs p assets, fixture_packs E = Ok packs ∧ p ∈ packs ∧
        DefaultAssetPack.id p = id ∧ fixture_assets E id = Ok assets ∧
        a ∈ assets
  | ForContent cid =>
      ∃ packs p assets a, fixture_packs E = Ok packs ∧ p ∈ packs ∧
        fixture_assets E (DefaultAssetPack.id p) = Ok assets ∧ a ∈ assets ∧
        cid ∈ Object_values (DefaultAsset.contents a)
  end.

(** The packs the main function still has to go through are a suffix of
    those of [packs.json]. *)
Definition main_ok (E : Env) (m : Main) : Prop :=
  match m with
  | AwaitPacks assetPacks _ => fixture_packs E = Ok assetPacks
  | AwaitAssets rest _ => ∃ seen, fixture_packs E = Ok (seen ++ rest)
  | _ => True
  end.

Record fixtures_inv (E : Env) (st : State) : Prop := mkFixturesInv {
  fi_main : main_ok E (main st);
  fi_tasks : ∀ tid t, tasks st !! tid = Some t → from_fixtures E (kind t)
}.

(** A run on the example installation in which nothing fails: the first
    thumbnail is uploaded, the second is already stored, one content file is
    downloaded and uploaded and the other is already stored.  Tasks 0 and 1
    are the packs, 2 and 5 the upserts of the two assets, 3 and 4 the two
    content files of the first asset. *)
Definition example_run : list Label :=
  [ MainResume;
    Deliver 0 (RBool false); Deliver 1 (RBool true); Deliver 0 RVoid;
    Continue 1; Continue 0; Deliver 1 RVoid; Deliver 0 RVoid;
    MainResume;
    Deliver 3 (RBool false); Deliver 4 (RBool true);
    Deliver 2 RVoid; Deliver 5 RVoid;
    Deliver 3 (RHttp (response 200 [on_data "ab"; on_data "cd"; on_end]));
    Deliver 3 RVoid;
    MainResume; MainResume ].

Definition example_state : State :=
  default (init empty_world) (run example_env (init empty_world) example_run).

(** What the main function writes to the trace: the logs and reads of the
    script, and the two ways it ends. *)
Definition scripted (a : Action) : Prop :=
  (∃ path, a = ALog ("Reading file " +:+ path)) ∨
  (∃ path, a = AReadFile path) ∨
  a = ALog "==== Asset packs ====" ∨
  a = ALog "==== Assets ====" ∨
  (∃ id pack, a = ALog ("Upserting asset " +:+ id +:+ " for asset pack " +:+ pack)) ∨
  (∃ e, a = ALog ("Error saving assets: " +:+ e)) ∨
  a = ALog "All done!" ∨
  (∃ e, a = AError e) ∨
  a = AExit.

(** A run in which the download of the first content file fails. *)
Definition failing_run : list Label :=
  [ MainResume;
    Deliver 0 (RBool true); Deliver 1 (RBool true);
    Continue 0; Continue 1; Deliver 0 RVoid; Deliver 1 RVoid;
    MainResume;
    Deliver 3 (RBool false); Deliver 4 (RBool false);
    Deliver 3 (RHttp (response 200 [on_data "ab"; on_error "ECONNRESET"]));
    MainResume;
    Deliver 4 (RHttp (response 200 [on_data "xy"; on_end]));
    Deliver 4 RVoid;
    Deliver 2 RVoid; Deliver 5 RVoid;
    MainResume ].

Definition failing_state : State :=
  default (init empty_world) (run example_env (init empty_world) failing_run).

(** *** The order of the two phases *)

Definition assets_banner : string := "==== Assets ====".

(** The packs of [packs.json], none when it cannot be read. *)
Definition planned_packs (E : Env) : list DefaultAssetPack.t :=
  match fixture_packs E with
  | Ok packs => packs
  | Throw _ => []
  end.

(** The fixture files in the order the script means to read them. *)
Definition planned_reads (E : Env) : list string :=
  (getDataPath E +:+ "/" +:+ "packs.json") ::
  ((λ p, getDataPath E +:+ "/" +:+ (DefaultAssetPack.id p +:+ ".json"))
     <$> planned_packs E).

(** The fixture files the main function has read, in order. *)
Definition main_reads (tr : list Entry) : list string :=
  omap (λ e : Entry,
          match e with
          | (None, AReadFile path) => Some path
          | _ => None
          end) tr.

(** The [Promise.all] the main function is waiting for. *)
Definition awaited (m : Main) : option PromiseAll :=
  match m with
  | AwaitPacks _ all | AwaitAssets _ all => Some all
  | _ => None
  end.

(** A property of traces that says of every entry what must have happened
    before it. *)
Definition justified (J : list Entry → Entry → Prop) (tr : list Entry) : Prop :=
  ∀ l1 e l2, tr = l1 ++ e :: l2 → J l1 e.

(** What precedes the entries that matter for the order of the phases:
    the banner of the asset phase comes after the fulfilment of every pack
    task (the tasks numbered below the number of packs); every other task
    acts after the banner, and so does every read of a fixture file by the
    main function but the first; and when the main function reads a fixture
    file, every task that has acted is fulfilled, unless some task was
    rejected before. *)
Definition phase_order (E : Env) (l1 : list Entry) (e : Entry) : Prop :=
  (e = (None, ALog assets_banner) →
     ∀ tid, tid < length (planned_packs E) → (Some tid, AFulfilled) ∈ l1) ∧
  (∀ tid a, e = (Some tid, a) → length (planned_packs E) ≤ tid →
     (None, ALog assets_banner) ∈ l1) ∧
  (∀ path, e = (None, AReadFile path) →
     (main_reads l1 ≠ [] → (None, ALog assets_banner) ∈ l1) ∧
     ((∀ tid e', (Some tid, ARejected e') ∉ l1) →
      ∀ tid a, (Some tid, a) ∈ l1 → (Some tid, AFulfilled) ∈ l1)).

(** The claim of a full join, as it is written: a task that has acted
    before the main function reads a fixture file does nothing after it. *)
Definition joined_at_reads (tr : list Entry) : Prop :=
  ∀ l1 path l2 tid a b,
    tr = l1 ++ (None, AReadFile path) :: l2 →
    (Some tid, a) ∈ l1 → (Some tid, b) ∉ l2.

(** What the state knows about the [Promise.all] being awaited: its members
    are the tasks created since the main function last ran; it is fulfilled
    only when all of them are, rejected only with the reason of one that is;
    and the older tasks are all fulfilled unless some task was rejected. *)
Definition batch_ok (st : State) (all : PromiseAll) : Prop :=
  ∃ n, length (tasks st) = n + length (members all) ∧
    members all = seq n (length (members all)) ∧
    (outcome all = fulfilled () →
       ∀ tid t, n ≤ tid → tasks st !! tid = Some t → pc t = Fulfilled) ∧
    (∀ e, outcome all = rejected e →
       ∃ tid t, n ≤ tid ∧ tasks st !! tid = Some t ∧ pc t = Rejected e) ∧
    ((∀ tid e, (Some tid, ARejected e) ∉ trace st) →
       ∀ tid t, tid < n → tasks st !! tid = Some t → pc t = Fulfilled).

Record await_inv (E : Env) (st : State) : Prop := mkAwaitInv {
  ai_start : main st = Start → tasks st = [] ∧ trace st = [];
  ai_batch : ∀ all, awaited (main st) = Some all → batch_ok st all;
  ai_packs : ∀ assetPacks all, main st = AwaitPacks assetPacks all →
    length (members all) = length (tasks st) ∧
    length (tasks st) = length (planned_packs E);
  ai_kinds : main st ≠ Start →
    ∃ later, kind <$> tasks st = (ForPack <$> planned_packs E) ++ later ∧
      Forall (λ k, ∀ p, k ≠ ForPack p) later;
  ai_banner :
    (∀ rest all, main st = AwaitAssets rest all →
       (None, ALog assets_banner) ∈ trace st) ∧
    (length (planned_packs E) < length (tasks st) →
       (None, ALog assets_banner) ∈ trace st);
  ai_reads :
    match main st with
    | Start => main_reads (trace st) = []
    | AwaitPacks _ _ => main_reads (trace st) = take 1 (planned_reads E)
    | AwaitAssets rest _ =>
        main_reads (trace st)
        = take (S (length (planned_packs E) - length rest)) (planned_reads E) ∧
        length rest < length (planned_packs E)
    | _ => ∃ k, main_reads (trace st) = take k (planned_reads E)
    end;
  ai_order : justified (phase_order E) (trace st)
}.

(** The main function resumes the loop over [packs] after writing [pre]:
    from the barrier of the pack phase, or from the join of the previous
    pack, normally or through the [catch] of line 132. *)
Definition resumed (st : State) (pre : list Entry)
    (packs : list DefaultAssetPack.t) : Prop :=
  (∃ all, main st = AwaitPacks packs all ∧ outcome all = fulfilled () ∧
     pre = [(None, ALog assets_banner)]) ∨
  (∃ all, main st = AwaitAssets packs all ∧
     ((outcome all = fulfilled () ∧ pre = []) ∨
      ∃ e, outcome all = rejected e ∧
           pre = [(None, ALog ("Error saving assets: " +:+ e))])).

(** The five things a run of the main function can produce. *)
Inductive main_out (E : Env) (st : State) (o : Out Next) : Prop :=
| main_out_start packs :
    main st = Start → fixture_packs E = Ok packs →
    o = mkOut (fixture_read E "packs.json" ++
               (None, ALog "==== Asset packs ====") ::
               calls_of E (length (tasks st)) (pack_tasks E packs))
              (pack_tasks E packs) (Ok (NextAwaitPacks packs)) →
    main_out E st o
| main_out_start_throw e :
    main st = Start → fixture_packs E = Throw e →
    o = mkOut (fixture_read E "packs.json") [] (Throw e) →
    main_out E st o
| main_out_done pre :
    resumed st pre [] → o = mkOut pre [] (Ok NextDone) → main_out E st o
| main_out_next pre pack rest assets :
    resumed st pre (pack :: rest) →
    fixture_assets E (DefaultAssetPack.id pack) = Ok assets →
    o = mkOut (pre ++ fixture_read E (DefaultAssetPack.id pack +:+ ".json") ++
               iteration_entries E (DefaultAssetPack.id pack)
                 (length (tasks st)) assets)
              (assets ≫= asset_tasks E (DefaultAssetPack.id pack))
              (Ok (NextAwaitAssets rest)) →
    main_out E st o
| main_out_throw pre pack rest e :
    resumed st pre (pack :: rest) →
    fixture_assets E (DefaultAssetPack.id pack) = Throw e →
    o = mkOut (pre ++ fixture_read E (DefaultAssetPack.id pack +:+ ".json"))
              [] (Throw e) →
    main_out E st o.

(** The entries of the asset phase: its banner, the reads of the fixture
    files of the packs (every read by the main function but the first, which
    is that of [packs.json]), and whatever is done by a task that is not the
    task of a pack. *)
Definition asset_phase (st : State) (l1 : list Entry) (e : Entry) : Prop :=
  e = (None, ALog assets_banner) ∨
  (∃ path, e = (None, AReadFile path) ∧ main_reads l1 ≠ []) ∨
  (∃ tid a t, e = (Some tid, a) ∧ tasks st !! tid = Some t ∧
     ∀ p, kind t ≠ ForPack p).

(** *** A second run *)

(** The keys of the records of the two tables, in the order of the tables. *)
Definition pack_keys (w : World) : list (list (option Value)) :=
  row_key ["id"] <$> asset_packs w.

Definition asset_keys (w : World) : list (list (option Value)) :=
  row_key ["id"; "asset_pack_id"] <$> assets w.

(** The writes to the object store. *)
Definition is_save (op : Op) : Prop :=
  match op with
  | S3AssetPack_saveFile _ _ _ _ | S3Content_saveFile _ _ _ => True
  | _ => False
  end.

(** The response delivered by [l] is truthful about the store as it is. *)
Definition honest (st : State) (l : Label) : Prop :=
  match l with
  | Deliver tid r =>
      match tasks st !! tid with
      | Some t =>
          match pc t with
          | Awaiting op => truthful (world st) op r
          | _ => True
          end
      | None => True
      end
  | _ => True
  end.

(** A run all of whose existence checks are answered truthfully. *)
Fixpoint honest_run (E : Env) (st : State) (ls : list Label) : Prop :=
  match ls with
  | [] => True
  | l :: ls' =>
      honest st l ∧
      match step E l st with
      | Some st' => honest_run E st' ls'
      | None => True
      end
  end.

(** A run that went through: it ended with 'All done!' and every operation
    it started was fulfilled. *)
Definition clean (st : State) : Prop :=
  main st = Exited true ∧
  ∀ tid t, tasks st !! tid = Some t → pc t = Fulfilled.

(** The example installation with the second thumbnail and the second
    content file already in the store, the state [example_run] leaves there,
    and a second run from that state. *)
Definition stocked_world : World :=
  {| bucket := {[ ThumbnailKey "p2" "p2.png" := ("png2", publicRead);
                  ContentKey "hash2" := ("xy", publicRead) ]};
     asset_packs := []; assets := [] |}.

Definition first_state : State :=
  default (init stocked_world) (run example_env (init stocked_world) example_run).

Definition second_run : list Label :=
  [ MainResume;
    Deliver 1 (RBool true); Deliver 0 (RBool true);
    Continue 0; Continue 1; Deliver 1 RVoid; Deliver 0 RVoid;
    MainResume;
    Deliver 4 (RBool true); Deliver 3 (RBool true);
    Deliver 5 RVoid; Deliver 2 RVoid;
    MainResume; MainResume ].

Definition second_state : State :=
  default (init (world first_state))
    (run example_env (init (world first_state)) second_run).

(** What one step can do to the world: nothing, a write to the bucket, the
    upsert of a pack of [packs.json] on its id, or the upsert of an asset of
    the file of such a pack on its id and that of the pack. *)
Inductive world_step (E : Env) (w : World) : World → Prop :=
| world_same : world_step E w w
| world_save k v :
    world_step E w {| bucket := <[k := v]> (bucket w);
                      asset_packs := asset_packs w; assets := assets w |}
| world_pack p :
    from_fixtures E (ForPack p) →
    world_step E w
      {| bucket := bucket w;
         asset_packs :=
           upsert ["id"] (assetPackAttributes E p (pack_filename E p))
             (asset_packs w);
         assets := assets w |}
| world_asset id a :
    from_fixtures E (ForAsset id a) →
    world_step E w
      {| bucket := bucket w;
         asset_packs := asset_packs w;
         assets := upsert ["id"; "asset_pack_id"] (assetAttributes id a)
                     (assets w) |}.

(** The record of a task that is fulfilled is in its table. *)
Definition recorded (E : Env) (st : State) : Prop :=
  ∀ tid t, tasks st !! tid = Some t → pc t = Fulfilled →
    match kind t with
    | ForPack p =>
        row_key ["id"] (assetPackAttributes E p (pack_filename E p))
          ∈ pack_keys (world st)
    | ForAsset id a =>
        row_key ["id"; "asset_pack_id"] (assetAttributes id a)
          ∈ asset_keys (world st)
    | ForContent _ => True
    end.

(** Every asset of the fixture files of the packs [seen] has its task. *)
Definition covered (E : Env) (st : State) (seen : list DefaultAssetPack.t)
    : Prop :=
  ∀ p assets a,
    p ∈ seen → fixture_assets E (DefaultAssetPack.id p) = Ok assets →
    a ∈ assets →
    ∃ tid t, tasks st !! tid = Some t ∧
      kind t = ForAsset (DefaultAssetPack.id p) a.

Definition cover_inv (E : Env) (st : State) : Prop :=
  match main st with
  | AwaitAssets rest _ =>
      ∃ seen, planned_packs E = seen ++ rest ∧ covered E st seen
  | Exited true => covered E st (planned_packs E)
  | _ => True
  end.

(** Every record the fixtures ask for is in the tables of [w]. *)
Definition seeded (E : Env) (w : World) : Prop :=
  (∀ p, from_fixtures E (ForPack p) →
     row_key ["id"] (assetPackAttributes E p (pack_filename E p))
       ∈ pack_keys w) ∧
  (∀ id a, from_fixtures E (ForAsset id a) →
     row_key ["id"; "asset_pack_id"] (assetAttributes id a) ∈ asset_keys w).

(** * Properties *)

(** ** Strings and monads *)

Lemma append_assoc (s1 s2 s3 : string) :
  (s1 +:+ s2) +:+ s3 = s1 +:+ (s2 +:+ s3).
Proof.
  induction s1 as [|c s1 IH]; [done|].
  change (String c ((s1 +:+ s2) +:+ s3) = String c (s1 +:+ s2 +:+ s3)).
  by rewrite IH.
Qed.

Lemma W_bind_out {A B} (m : W A) (k : A → W B) a :
  res m = Ok a → out (m ≫= k) = out m ++ out (k a) ∧ res (m ≫= k) = res (k a).
Proof. unfold mbind, W_bind. by intros ->. Qed.

Lemma W_bind_throw {A B} (m : W A) (k : A → W B) e :
  res m = Throw e → out (m ≫= k) = out m ∧ res (m ≫= k) = Throw e.
Proof. unfold mbind, W_bind. by intros ->. Qed.

(** ** The fixture reader *)

Lemma last_sort_greatest (l : list string) :
  l ≠ [] →
  ∃ x, last (merge_sort String.le l) = Some x ∧ x ∈ l ∧ ∀ y, y ∈ l → String.le y x.
Proof.
  intros Hne.
  pose proof (merge_sort_Permutation String.le l) as Hperm.
  pose proof (StronglySorted_merge_sort String.le l) as Hsorted.
  destruct (last (merge_sort String.le l)) as [x|] eqn:Hlast.
  - exists x. apply last_Some in Hlast as [l' Hl'].
    rewrite Hl' in Hperm, Hsorted. split_and!; [done|..].
    + rewrite <-Hperm. set_solver.
    + intros y Hy. rewrite <-Hperm in Hy.
      apply elem_of_app in Hy as [Hy| ->%list_elem_of_singleton]; [|done].
      eapply StronglySorted_app_1_elem_of; [done..|set_solver].
  - apply last_None in Hlast. rewrite Hlast in Hperm.
    by apply Permutation_nil_l in Hperm.
Qed.

Lemma readFileSync_out E filename encoding :
  let path := getDataPath E +:+ "/" +:+ filename in
  out (readFileSync E filename encoding)
    = [ALog ("Reading file " +:+ path); AReadFile path] ∧
  res (readFileSync E filename encoding) = fs_readFileSync E path.
Proof. done. Qed.

Lemma readJSON_out E {T} (JSON_parse : string → result T) filename :
  let path := getDataPath E +:+ "/" +:+ filename in
  out (readJSON E JSON_parse filename)
    = [ALog ("Reading file " +:+ path); AReadFile path] ∧
  res (readJSON E JSON_parse filename)
    = match fs_readFileSync E path with
      | Ok text => JSON_parse text
      | Throw e => Throw e
      end.
Proof.
  intros path. unfold readJSON.
  destruct (fs_readFileSync E path) as [text|e] eqn:Hread.
  - destruct (W_bind_out (readFileSync E filename (Some "utf8"))
                (λ text, of_result (JSON_parse text)) text) as [-> ->]; [done|].
    cbn. by rewrite ?app_nil_r.
  - by destruct (W_bind_throw (readFileSync E filename (Some "utf8"))
                (λ text, of_result (JSON_parse text)) e) as [-> ->].
Qed.

(** C8.  When the listing of the base directory has an entry that is a
    directory, [readJSON] reads the file of the given name inside the entry
    that is a directory and whose name is lexicographically greatest among
    the directories of the listing, and parses its text; a failed read or a
    failed parse is thrown on to the caller, and both callers ([seed],
    [upsertAssets]) throw it on in turn. *)
Theorem readJSON_reads_latest_directory
    E {T} (JSON_parse : string → result T) (filename : string) :
  (∃ d, d ∈ fs_readdirSync E (dirname E) ∧ isDirectory d = true) →
  ∃ directory,
    directory ∈ fs_readdirSync E (dirname E) ∧
    isDirectory directory = true ∧
    (∀ d, d ∈ fs_readdirSync E (dirname E) → isDirectory d = true →
          String.le (name d) (name directory)) ∧
    let path := dirname E +:+ "/" +:+ name directory +:+ "/" +:+ filename in
    out (readJSON E JSON_parse filename)
      = [ALog ("Reading file " +:+ path); AReadFile path] ∧
    res (readJSON E JSON_parse filename)
      = match fs_readFileSync E path with
        | Ok text => JSON_parse text
        | Throw e => Throw e
        end ∧
    (∀ e next, res (readJSON E (JSON_parse_packs E) "packs.json") = Throw e →
       value (runM (seed_start E) next) = Throw e) ∧
    (∀ e id next,
       res (readJSON E (JSON_parse_assets E) (id +:+ ".json")) = Throw e →
       value (runM (upsertAssets_iteration E id) next) = Throw e).
Proof.
  intros (d0 & Hd0 & Hdir0).
  assert (∀ d, d ∈ fs_readdirSync E (dirname E) → isDirectory d = true →
               name d ∈ getDirectories E (dirname E)) as Hlisted.
  { intros d Hd Hdir. unfold getDirectories. apply list_elem_of_fmap.
    exists d. split; [done|]. apply list_elem_of_filter.
    split; [by apply Is_true_true|done]. }
  assert (getDirectories E (dirname E) ≠ []) as Hdirs.
  { intros Hnil. specialize (Hlisted d0 Hd0 Hdir0). rewrite Hnil in Hlisted.
    by apply elem_of_nil in Hlisted. }
  destruct (last_sort_greatest _ Hdirs) as (lastData & Hlast & Hin & Hmax).
  unfold getDirectories in Hin.
  apply list_elem_of_fmap in Hin as (directory & -> & Hin).
  apply list_elem_of_filter in Hin as [Hisdir%Is_true_true Hin].
  exists directory. split_and!; [done|done|by auto|].
  assert (getDataPath E = dirname E +:+ "/" +:+ name directory) as Hpath.
  { unfold getDataPath, pop, sort. by rewrite Hlast. }
  intros path.
  assert (getDataPath E +:+ "/" +:+ filename = path) as Hfile.
  { rewrite Hpath. subst path. by rewrite !append_assoc. }
  destruct (readJSON_out E JSON_parse filename) as [Hout Hres].
  rewrite Hfile in Hout, Hres. split_and!; [done|done|..].
  - intros e next He. unfold seed_start. cbn. by rewrite He.
  - intros e id next He. unfold upsertAssets_iteration. cbn. by rewrite He.
Qed.

(** C10.  With no subdirectory in the base directory, [getDataPath] still
    returns a path: the base directory joined with the string "undefined",
    which names none of its subdirectories; every file is then looked up
    under that path. *)
Theorem getDataPath_without_directories E :
  getDirectories E (dirname E) = [] →
  getDataPath E = dirname E +:+ "/undefined" ∧
  ("undefined" ∉ getDirectories E (dirname E)) ∧
  ∀ filename encoding,
    let path := dirname E +:+ "/undefined/" +:+ filename in
    out (readFileSync E filename encoding)
      = [ALog ("Reading file " +:+ path); AReadFile path] ∧
    res (readFileSync E filename encoding) = fs_readFileSync E path.
Proof.
  intros Hdirs.
  assert (getDataPath E = dirname E +:+ "/undefined") as Hpath.
  { unfold getDataPath. by rewrite Hdirs. }
  split_and!; [done|by rewrite Hdirs; apply not_elem_of_nil|].
  intros filename encoding path.
  destruct (readFileSync_out E filename encoding) as [-> ->].
  rewrite Hpath. subst path.
  replace (dirname E +:+ "/undefined/" +:+ filename)
    with ((dirname E +:+ "/undefined") +:+ "/" +:+ filename); [done|].
  by rewrite append_assoc.
Qed.

(** ** The remote content fetcher *)

Lemma downloadAsset_request_url E cid :
  let url := (if isProduction E then "https://assets.decentraland.org/"
              else "https://assets.decentraland.zone/") +:+ cid in
  out (downloadAsset_request E cid) = [ALog ("Downloading " +:+ url)] ∧
  res (downloadAsset_request E cid) = Ok (https_get url).
Proof.
  unfold downloadAsset_request, getAssetsUrl. cbn.
  destruct (isProduction E); by rewrite !append_assoc.
Qed.

Lemma listener_data chunks0 file0 (chunks1 : list Buffer) :
  foldl response_listener (mkExecutor chunks0 file0 pending)
        (on_data <$> chunks1)
  = mkExecutor (chunks0 ++ chunks1) file0 pending.
Proof.
  revert chunks0. induction chunks1 as [|c chunks1 IH]; intros chunks0; cbn.
  - by rewrite app_nil_r.
  - rewrite IH. by rewrite <-app_assoc.
Qed.

Lemma listener_settled x events :
  settled x ≠ pending →
  settled (foldl response_listener x events) = settled x.
Proof.
  revert x. induction events as [|ev events IH]; intros x Hx; [done|].
  cbn. rewrite IH; destruct ev, x as [? ? []]; done.
Qed.

(** A response whose stream delivers its chunks and ends: the promise is
    fulfilled with all the chunks, concatenated in order. *)
Lemma downloadAsset_complete_body statusCode (body : list Buffer) more :
  downloadAsset_outcome
    (response statusCode ((on_data <$> body) ++ on_end :: more))
  = promise_is (fulfilled (Buffer_concat body)).
Proof.
  unfold downloadAsset_outcome, executor_init.
  rewrite foldl_app, listener_data. cbn. by rewrite listener_settled.
Qed.

(** An error on the response stream rejects the promise. *)
Lemma downloadAsset_response_error statusCode (body : list Buffer) e more :
  downloadAsset_outcome
    (response statusCode ((on_data <$> body) ++ on_error e :: more))
  = promise_is (rejected e).
Proof.
  unfold downloadAsset_outcome, executor_init.
  rewrite foldl_app, listener_data. cbn. by rewrite listener_settled.
Qed.

(** C7 (the code departs from the claim).  An error of the request itself
    does not reject the promise: no listener is registered on the request,
    the promise is left as it is, and the task that awaits it takes the
    whole process down instead of being rejected. *)
Theorem downloadAsset_request_error_not_rejected E cid url e :
  downloadAsset_outcome (request_error e) = uncaught e ∧
  downloadAsset_outcome (request_error e) ≠ promise_is (rejected e) ∧
  resume E (ForContent cid) (https_get url) (RHttp (request_error e)) = Crash e.
Proof. done. Qed.

(** C9.  Whatever the status code, a response that ends fulfils the promise
    with its body; the task then writes that body to the object store under
    the content identifier, where it stays once the write succeeds. *)
Theorem downloadAsset_ignores_status E cid url statusCode (body : list Buffer) :
  let t := response statusCode ((on_data <$> body) ++ [on_end]) in
  let upload := S3Content_saveFile cid (Buffer_concat body) publicRead in
  downloadAsset_outcome t = promise_is (fulfilled (Buffer_concat body)) ∧
  resume E (ForContent cid) (https_get url) (RHttp t)
    = Resume (log ("Uploading file " +:+ cid +:+ " to S3");; call upload) ∧
  ∀ w, bucket (effect upload RVoid w) !! ContentKey cid
       = Some (Buffer_concat body, publicRead).
Proof.
  intros t upload. split_and!.
  - apply downloadAsset_complete_body.
  - unfold resume. subst t. by rewrite downloadAsset_complete_body.
  - intros w. cbn. apply lookup_insert_eq.
Qed.

(** ** Traces and their projections *)

Global Arguments proj : simpl never.
Global Arguments main_actions : simpl never.

Lemma proj_app tid l1 l2 : proj tid (l1 ++ l2) = proj tid l1 ++ proj tid l2.
Proof. apply omap_app. Qed.

Lemma main_actions_app l1 l2 :
  main_actions (l1 ++ l2) = main_actions l1 ++ main_actions l2.
Proof. apply omap_app. Qed.

Lemma proj_cons tid who a (l : list Entry) :
  proj tid ((who, a) :: l)
  = if decide (who = Some tid) then a :: proj tid l else proj tid l.
Proof. unfold proj. cbn. by case_decide. Qed.

Lemma main_actions_cons who a (l : list Entry) :
  main_actions ((who, a) :: l)
  = if decide (who = None) then a :: main_actions l else main_actions l.
Proof. unfold main_actions. cbn. by case_decide. Qed.

Lemma proj_tagged tid tid' (acts : list Action) :
  proj tid ((λ a, (Some tid', a)) <$> acts) = if decide (tid' = tid) then acts else [].
Proof.
  induction acts as [|a acts IH]; [by case_decide|].
  rewrite fmap_cons, proj_cons, IH. repeat case_decide; simplify_eq; done.
Qed.

Lemma proj_untagged tid (acts : list Action) :
  proj tid ((λ a, (None, a)) <$> acts) = [].
Proof.
  induction acts as [|a acts IH]; [done|].
  rewrite fmap_cons, proj_cons, IH. by case_decide.
Qed.

Lemma main_actions_tagged tid (acts : list Action) :
  main_actions ((λ a, (Some tid, a)) <$> acts) = [].
Proof.
  induction acts as [|a acts IH]; [done|].
  rewrite fmap_cons, main_actions_cons, IH. by case_decide.
Qed.

Lemma main_actions_untagged (acts : list Action) :
  main_actions ((λ a, (None, a)) <$> acts) = acts.
Proof.
  induction acts as [|a acts IH]; [done|].
  rewrite fmap_cons, main_actions_cons, IH. by case_decide.
Qed.

Lemma elem_of_proj tid a (l : list Entry) : a ∈ proj tid l ↔ (Some tid, a) ∈ l.
Proof.
  unfold proj. rewrite list_elem_of_omap. split.
  - intros ([who a'] & Hin & Hsome). cbn in Hsome. case_decide; simplify_eq/=. done.
  - intros Hin. exists (Some tid, a). split; [done|]. cbn. by case_decide.
Qed.

Lemma elem_of_main_actions a (l : list Entry) :
  a ∈ main_actions l ↔ (None, a) ∈ l.
Proof.
  unfold main_actions. rewrite list_elem_of_omap. split.
  - intros ([who a'] & Hin & Hsome). cbn in Hsome. case_decide; simplify_eq/=. done.
  - intros Hin. exists (None, a). split; [done|]. cbn. by case_decide.
Qed.

Lemma proj_fresh tid (l : list Entry) :
  (∀ a, (Some tid, a) ∉ l) → proj tid l = [].
Proof.
  intros Hfresh. destruct (proj tid l) as [|a h] eqn:Hproj; [done|].
  destruct (Hfresh a). apply elem_of_proj. rewrite Hproj. left.
Qed.

Lemma proj_split tid (tr l1 l2 : list Entry) a :
  tr = l1 ++ (Some tid, a) :: l2 → proj tid tr = proj tid l1 ++ a :: proj tid l2.
Proof. intros ->. rewrite proj_app, proj_cons. by case_decide. Qed.

Lemma proj_filter tid (l : list Entry) :
  proj tid (filter (λ e : Entry, is_Some e.1) l) = proj tid l.
Proof.
  induction l as [|[who a] l IH]; [done|].
  rewrite filter_cons, (proj_cons _ _ _ l). destruct who as [tid'|]; cbn [fst].
  - case_decide as Hd; [|by destruct Hd; eexists].
    rewrite proj_cons. case_decide; by rewrite IH.
  - case_decide as Hd; [by destruct Hd as [? ?]|]. by case_decide.
Qed.

Lemma calls_of_app E next ts1 ts2 :
  calls_of E next (ts1 ++ ts2)
  = calls_of E next ts1 ++ calls_of E (next + length ts1) ts2.
Proof.
  revert next. induction ts1 as [|t ts1 IH]; intros next; cbn.
  - by rewrite Nat.add_0_r.
  - rewrite IH. by rewrite Nat.add_succ_r.
Qed.

Lemma elem_of_calls_of E next ts who a :
  (who, a) ∈ calls_of E next ts →
  ∃ i t, who = Some (next + i) ∧ ts !! i = Some t ∧ a = ACall (first_op E (kind t)).
Proof.
  revert next. induction ts as [|t ts IH]; intros next; cbn.
  - by intros ?%elem_of_nil.
  - intros [Heq|Hin]%elem_of_cons.
    + simplify_eq. exists 0, t. by rewrite Nat.add_0_r.
    + destruct (IH _ Hin) as (i & t' & -> & Hi & ->).
      exists (S i), t'. split_and!; [f_equal; lia|done..].
Qed.

Lemma proj_calls_of_lt E next ts tid :
  tid < next → proj tid (calls_of E next ts) = [].
Proof.
  intros Hlt. apply proj_fresh. intros a Hin.
  apply elem_of_calls_of in Hin as (i & t & ? & _). simplify_eq. lia.
Qed.

Lemma proj_calls_of E next ts i t :
  ts !! i = Some t →
  proj (next + i) (calls_of E next ts) = [ACall (first_op E (kind t))].
Proof.
  revert next i. induction ts as [|t' ts IH]; intros next i Hi; [done|].
  destruct i as [|i]; cbn in *.
  - simplify_eq. rewrite Nat.add_0_r, proj_cons. case_decide; [|done].
    by rewrite proj_calls_of_lt by lia.
  - rewrite proj_cons. case_decide; [simplify_eq; lia|].
    replace (next + S i) with (S next + i) by lia. by apply IH.
Qed.

(** ** The code of the main function is tidy *)
Section tidy.
Variable E : Env.

Lemma Tidy_ret {A} (a : A) : Tidy E (mret a).
Proof. intros next. by split. Qed.

Lemma Tidy_lift {A} (w : W A) :
  Forall (λ a, ∃ s, a = ALog s ∨ a = AReadFile s) (out w) → Tidy E (lift w).
Proof.
  intros Hw next. split; cbn; [done| |].
  - induction (out w) as [|a l IH]; [done|].
    rewrite fmap_cons, filter_cons. cbn.
    case_decide as Hd; [by destruct Hd|]. apply IH. by inversion Hw.
  - by rewrite main_actions_untagged.
Qed.

Lemma Tidy_log s : Tidy E (lift (log s)).
Proof. apply Tidy_lift. repeat constructor. eauto. Qed.

Lemma Tidy_throw {A} e : Tidy E (lift (throw (A:=A) e)).
Proof. by apply Tidy_lift. Qed.

Lemma Tidy_readJSON {T} (JSON_parse : string → result T) filename :
  Tidy E (lift (readJSON E JSON_parse filename)).
Proof.
  apply Tidy_lift. destruct (readJSON_out E JSON_parse filename) as [-> _].
  repeat constructor; eauto.
Qed.

Lemma Tidy_spawn k : Tidy E (spawn k (first_op E k)).
Proof.
  intros next. split; cbn; [by repeat constructor| |done].
  case_decide as Hd; [done|]. destruct Hd. by eexists.
Qed.

Lemma tidy_combine {A B} next (o1 : Out A) (o2 : Out B) (v : result B) :
  tidy E next o1 → tidy E (next + length (spawned o1)) o2 →
  tidy E next (mkOut (entries o1 ++ entries o2) (spawned o1 ++ spawned o2) v).
Proof.
  intros [Hs1 Hc1 Hm1] [Hs2 Hc2 Hm2]. split; cbn.
  - by apply Forall_app.
  - by rewrite filter_app, calls_of_app, Hc1, Hc2.
  - rewrite main_actions_app. by apply Forall_app.
Qed.

Lemma Tidy_bind {A B} (m : M A) (k : A → M B) :
  Tidy E m → (∀ a, Tidy E (k a)) → Tidy E (m ≫= k).
Proof.
  intros Hm Hk next. specialize (Hm next).
  unfold mbind, M_bind. cbn [runM].
  destruct (value (runM m next)) as [a|e] eqn:Hv.
  - apply tidy_combine; [done|apply Hk].
  - by destruct Hm.
Qed.

Lemma Tidy_try_catch {A} (body : M A) (handler : Error → M A) :
  Tidy E body → (∀ e, Tidy E (handler e)) → Tidy E (try_catch body handler).
Proof.
  intros Hm Hk next. specialize (Hm next).
  unfold try_catch. cbn [runM].
  destruct (value (runM body next)) as [a|e] eqn:Hv; [done|].
  apply tidy_combine; [done|apply Hk].
Qed.

Lemma Tidy_for_of {A} (l : list A) (f : A → M unit) :
  (∀ x, Tidy E (f x)) → Tidy E (for_of l f).
Proof.
  intros Hf. induction l as [|x l IH]; cbn; [apply Tidy_ret|].
  apply Tidy_bind; [apply Hf|done].
Qed.

Lemma Tidy_contents_of attributes : Tidy E (contents_of attributes).
Proof.
  unfold contents_of.
  destruct (get "contents" attributes) as [[]|];
    first [apply Tidy_throw | apply Tidy_ret].
Qed.

Lemma Tidy_upsertAssets_iteration id : Tidy E (upsertAssets_iteration E id).
Proof.
  unfold upsertAssets_iteration.
  apply Tidy_bind; [apply Tidy_readJSON|]. intros assetsResponse.
  apply Tidy_for_of. intros defaultAttributes.
  apply Tidy_bind; [apply Tidy_log|]. intros _.
  apply Tidy_bind; [apply (Tidy_spawn (ForAsset id defaultAttributes))|].
  intros _. apply Tidy_try_catch; [|intros e; apply Tidy_log].
  apply Tidy_bind; [apply Tidy_contents_of|]. intros contents.
  apply Tidy_for_of. intros cid. apply (Tidy_spawn (ForContent cid)).
Qed.

Lemma Tidy_upsertAssets_loop packs : Tidy E (upsertAssets_loop E packs).
Proof.
  destruct packs as [|pack rest]; cbn [upsertAssets_loop]; [apply Tidy_ret|].
  apply Tidy_bind; [apply Tidy_upsertAssets_iteration|].
  intros _. apply Tidy_ret.
Qed.

Lemma Tidy_seed_start : Tidy E (seed_start E).
Proof.
  unfold seed_start.
  apply Tidy_bind; [apply Tidy_readJSON|]. intros packsResponse.
  apply Tidy_bind; [apply Tidy_log|]. intros _.
  apply Tidy_bind; [|intros _; apply Tidy_ret].
  apply Tidy_for_of. intros pack. apply (Tidy_spawn (ForPack pack)).
Qed.

Lemma Tidy_seed_assets packs : Tidy E (seed_assets E packs).
Proof.
  unfold seed_assets. apply Tidy_bind; [apply Tidy_log|].
  intros _. apply Tidy_upsertAssets_loop.
Qed.

Lemma Tidy_upsertAssets_catch e rest : Tidy E (upsertAssets_catch E e rest).
Proof.
  unfold upsertAssets_catch. apply Tidy_bind; [apply Tidy_log|].
  intros _. apply Tidy_upsertAssets_loop.
Qed.
End tidy.

(** ** Steps and invariants *)

Lemma step_Step E l st st' : step E l st = Some st' → Step E st st'.
Proof.
  unfold step. destruct (running st) eqn:Hrun; [|done].
  destruct l as [tid r|tid|].
  - destruct (tasks st !! tid) as [t|] eqn:Ht; [|done]. cbn.
    destruct (pc t) as [op| | |] eqn:Hpc; try done.
    destruct (resume E (kind t) op r) as [w|e|] eqn:Hres; [| |done];
      intros [= <-]; by econstructor.
  - destruct (tasks st !! tid) as [t|] eqn:Ht; [|done]. cbn.
    destruct (pc t) as [|filename| |] eqn:Hpc; try done.
    destruct (continue E (kind t) filename) as [w|] eqn:Hk; [|done].
    intros [= <-]. by econstructor.
  - unfold step_main.
    destruct (main st) as [|assetPacks all|rest all| |] eqn:Hmain; try done.
    + intros [= <-]. apply Step_main. unfold main_code. by rewrite Hmain.
    + destruct (outcome all) as [|u|e] eqn:Hall; [done|..]; intros [= <-].
      * apply Step_main. unfold main_code. by rewrite Hmain, Hall.
      * by eapply Step_exit.
    + destruct (outcome all) as [|u|e] eqn:Hall; [done|..]; intros [= <-];
        apply Step_main; unfold main_code; by rewrite Hmain, Hall.
Qed.

Lemma run_invariant E (I : State → Prop) ls st st' :
  (∀ s s', I s → Step E s s' → I s') →
  I st → run E st ls = Some st' → I st'.
Proof.
  intros Hstep. revert st. induction ls as [|l ls IH]; intros st HI; cbn.
  - by intros [= <-].
  - destruct (step E l st) as [st1|] eqn:Hst; [|done]. cbn.
    apply IH. eapply Hstep; [done|]. by eapply step_Step.
Qed.

Lemma main_code_Tidy E st m : main_code E st = Some m → Tidy E m.
Proof.
  unfold main_code. intros Hm.
  destruct (main st) as [|assetPacks all|rest all| |]; simplify_eq.
  - apply Tidy_seed_start.
  - destruct (outcome all); simplify_eq. apply Tidy_seed_assets.
  - destruct (outcome all); simplify_eq.
    + apply Tidy_upsertAssets_loop.
    + apply Tidy_upsertAssets_catch.
Qed.

Lemma main_code_running E st m : main_code E st = Some m → running st = true.
Proof. unfold main_code, running. by destruct (main st). Qed.

Lemma notify_running tid pc' ts m :
  notify tid pc' ts m ≠ Crashed ↔ m ≠ Crashed.
Proof. by destruct m. Qed.

Lemma running_not_crashed st : running st = true → main st ≠ Crashed.
Proof. unfold running. by destruct (main st). Qed.

Lemma next_main_not_crashed v all : next_main v all ≠ Crashed.
Proof. by destruct v as [[]|]. Qed.

Lemma last_words_main_action v : Forall main_action (last_words v).
Proof. destruct v as [[]|]; by repeat constructor. Qed.

Lemma lifeline_alive E m k pc h :
  m ≠ Crashed → lifeline E m k pc h → history E k pc h.
Proof. by intros ? [?|[? _]]. Qed.

Lemma lifeline_history E m k pc h : history E k pc h → lifeline E m k pc h.
Proof. by left. Qed.

Lemma wf_histories_init E w : wf_histories E (init w).
Proof.
  split; cbn.
  - by intros ?? ?%elem_of_nil.
  - by intros ??.
  - done.
Qed.

Lemma wf_histories_task E st tid t pre w world' h' :
  wf_histories E st → running st = true →
  tasks st !! tid = Some t →
  (∀ h, history E (kind t) (pc t) h →
        history E (kind t) (next_pc w) (h ++ h')) →
  h' = pre ++ out w ++ settled_entry (next_pc w) →
  wf_histories E (run_task st tid (kind t) pre w world').
Proof.
  intros [Hbound Hlife Hmain] Hrun%running_not_crashed Ht Hh ->.
  pose proof (lookup_lt_Some _ _ _ Ht) as Hlt.
  split; cbn.
  - intros tid' a. rewrite length_insert, elem_of_app, list_elem_of_fmap.
    intros [Hin|(a' & ? & _)]; [by eapply Hbound|]. by simplify_eq.
  - intros tid' t' Ht'. rewrite proj_app, proj_tagged.
    destruct (decide (tid = tid')) as [<-|Hne].
    + rewrite list_lookup_insert_eq in Ht' by done. simplify_eq/=.
      apply lifeline_history, Hh. eapply lifeline_alive; [done|]. by apply Hlife.
    + rewrite list_lookup_insert_ne in Ht' by done. rewrite app_nil_r.
      apply lifeline_history. eapply lifeline_alive; [done|]. by apply Hlife.
  - by rewrite main_actions_app, main_actions_tagged, app_nil_r.
Qed.

Lemma wf_histories_step E st st' :
  wf_histories E st → Step E st st' → wf_histories E st'.
Proof.
  intros Hwf Hstep. destruct Hstep as
    [tid r t op w Hrun Ht Hpc Hres|tid r t op e Hrun Ht Hpc Hres
    |tid t filename w Hrun Ht Hpc Hk|m Hm|assetPacks all e Hmain Hall].
  - eapply wf_histories_task; [done..| |done].
    intros h Hh. rewrite Hpc in Hh. by apply (history_resume E _ op r w).
  - destruct Hwf as [Hbound Hlife Hmain].
    pose proof (lookup_lt_Some _ _ _ Ht) as Hlt.
    apply running_not_crashed in Hrun. split; cbn.
    + intros tid' a. rewrite elem_of_app. intros [Hin|Hin]; [by eapply Hbound|].
      set_solver.
    + intros tid' t' Ht'. rewrite proj_app, !proj_cons.
      specialize (Hlife _ _ Ht'). apply lifeline_alive in Hlife; [|done].
      destruct (decide (tid = tid')) as [<-|Hne].
      * simplify_eq. right. split; [done|].
        exists (proj tid (trace st)), op, r, e.
        rewrite Hpc in *. repeat case_decide; try done.
      * left. repeat case_decide; simplify_eq. by rewrite app_nil_r.
    + rewrite main_actions_app, !main_actions_cons.
      repeat case_decide; simplify_eq. by rewrite app_nil_r.
  - eapply wf_histories_task; [done..| |done].
    intros h Hh. rewrite Hpc in Hh. by apply (history_continue E _ filename w).
  - pose proof (main_code_Tidy _ _ _ Hm (length (tasks st))) as [Hsp Hcalls Hmn].
    pose proof (main_code_running _ _ _ Hm) as Hrun%running_not_crashed.
    destruct Hwf as [Hbound Hlife Hmain].
    set (o := runM m (length (tasks st))) in *.
    assert (∀ tid a, (Some tid, a) ∈ entries o →
              ∃ i t, tid = length (tasks st) + i ∧ spawned o !! i = Some t ∧
                     a = ACall (first_op E (kind t))) as Hnew.
    { intros tid a Hin.
      assert ((Some tid, a) ∈ filter (λ e : Entry, is_Some e.1) (entries o)) as Hf.
      { apply list_elem_of_filter. split; [by eexists|done]. }
      rewrite Hcalls in Hf. apply elem_of_calls_of in Hf as (i & t & ? & ? & ?).
      simplify_eq. eauto. }
    split; cbn; fold o.
    + intros tid a. rewrite length_app, !elem_of_app, list_elem_of_fmap.
      intros [Hin|[Hin|(a' & ? & _)]]; [| |by simplify_eq].
      * apply Hbound in Hin. lia.
      * apply Hnew in Hin as (i & t & -> & Hi%lookup_lt_Some & _). lia.
    + intros tid t Ht. rewrite !proj_app, proj_untagged, app_nil_r.
      rewrite <-(proj_filter _ (entries o)), Hcalls.
      apply lifeline_history.
      destruct (decide (tid < length (tasks st))) as [Hlt|Hge].
      * rewrite lookup_app_l in Ht by done.
        rewrite proj_calls_of_lt, app_nil_r by done.
        eapply lifeline_alive; [done|]. by apply Hlife.
      * rewrite lookup_app_r in Ht by lia.
        replace tid with (length (tasks st) + (tid - length (tasks st))) at 1 2 by lia.
        rewrite (proj_calls_of _ _ _ _ _ Ht).
        rewrite proj_fresh; [|intros a Hin%Hbound; lia].
        rewrite Forall_lookup in Hsp. rewrite (Hsp _ _ Ht). constructor.
    + rewrite !main_actions_app, main_actions_untagged.
      repeat apply Forall_app_2; [done| |apply last_words_main_action].
      eapply Forall_impl; [done|]. by intros a [s [-> | ->]].
  - destruct Hwf as [Hbound Hlife Hmn]. split; cbn.
    + intros tid a. rewrite elem_of_app. intros [Hin|Hin]; [by eapply Hbound|].
      set_solver.
    + intros tid t Ht. rewrite proj_app, !proj_cons.
      repeat case_decide; simplify_eq. rewrite app_nil_r.
      apply lifeline_history. eapply lifeline_alive; [|by apply Hlife].
      by rewrite Hmain.
    + rewrite main_actions_app, !main_actions_cons.
      repeat case_decide; simplify_eq. apply Forall_app_2; [done|].
      by repeat constructor.
Qed.

Lemma reachable_wf_histories E w st : reachable E w st → wf_histories E st.
Proof.
  intros [ls Hrun]. eapply run_invariant; [|apply wf_histories_init|done].
  intros. by eapply wf_histories_step.
Qed.

(** ** The statements about the fixture reader, on the example installation *)

Lemma readJSON_reads_latest_directory_witness :
  (∃ d, d ∈ fs_readdirSync example_env (dirname example_env) ∧
        isDirectory d = true) ∧
  out (readJSON example_env (JSON_parse_packs example_env) "packs.json")
  = [ALog "Reading file /seed/2020-02/packs.json";
     AReadFile "/seed/2020-02/packs.json"].
Proof.
  assert (∃ d, d ∈ fs_readdirSync example_env (dirname example_env) ∧
               isDirectory d = true) as Hdirs.
  { exists (mkDirent "2020-01" true). split; [|reflexivity].
    vm_compute. apply list_elem_of_here. }
  split; [exact Hdirs|].
  destruct (readJSON_reads_latest_directory example_env
              (JSON_parse_packs example_env) "packs.json" Hdirs)
    as (directory & Hin & Hisdir & Hmax & Hout & _).
  assert (mkDirent "2020-02" true
            ∈ fs_readdirSync example_env (dirname example_env)) as Hnewest.
  { vm_compute. apply list_elem_of_further, list_elem_of_here. }
  specialize (Hmax _ Hnewest eq_refl).
  assert (directory = mkDirent "2020-02" true) as ->.
  { vm_compute in Hin.
    repeat (apply elem_of_cons in Hin as [->|Hin];
            [first [reflexivity | discriminate Hisdir
                   | vm_compute in Hmax; destruct Hmax]|]).
    by apply elem_of_nil in Hin. }
  exact Hout.
Defined.

Lemma getDataPath_without_directories_witness :
  getDirectories bare_env (dirname bare_env) = [] ∧
  getDataPath bare_env = "/seed/undefined".
Proof.
  assert (getDirectories bare_env (dirname bare_env) = []) as Hdirs.
  { reflexivity. }
  split; [exact Hdirs|].
  exact (proj1 (getDataPath_without_directories bare_env Hdirs)).
Defined.

(** ** The shape of task histories *)

Ltac shape_done :=
  cbn;
  unfold content_uploading, content_requested, content_checked, content_url,
    pack_upserting, pack_saving, pack_read, pack_checked, pack_returned in *;
  cbn; eauto 12.

Lemma history_shape E k pc h : history E k pc h → shape E k pc h.
Proof.
  induction 1 as [|op r w h Hh IH Hres|filename w h Hh IH Hk].
  - destruct k; cbn; eauto.
  - destruct k as [p|id a|cid]; cbn in IH |- *.
    + destruct IH as [[-> ->]|[(data & Hdata & -> & ->)|(h0 & Hh0 & -> & ->)]].
      * destruct r as [[]| | |]; simplify_eq/=; [shape_done| |shape_done].
        unfold next_pc. cbn. fold (pack_filename E p). fold (pack_path E p).
        destruct (fs_readFileSync E (pack_path E p)) as [data|e] eqn:Hread; cbn.
        -- right. left. exists data. shape_done.
        -- right. left. shape_done.
      * destruct r; simplify_eq/=.
        -- split; [done|]. right. exists data. split; [done|]. shape_done.
        -- right. right. left. exists data. split; [done|]. shape_done.
      * destruct r; simplify_eq/=.
        -- by exists h0.
        -- right. right. right. by exists h0.
    + destruct IH as [-> ->]. destruct r; simplify_eq/=; done.
    + destruct IH as [[-> ->]|[[-> ->]|(t & file & Ht & -> & ->)]].
      * destruct r as [[]| | |]; simplify_eq/=; shape_done.
      * destruct r as [| | |t]; simplify_eq/=.
        destruct (downloadAsset_outcome t) as [[|file|e]|e] eqn:Ht;
          simplify_eq/=; shape_done.
      * destruct r; simplify_eq/=; shape_done.
  - destruct k as [p|id a|cid]; simplify_eq/=.
    destruct IH as [-> Hret]. right. right. exists h. split; [done|].
    split; [done|]. reflexivity.
Qed.

Lemma lifeline_trail E m k pc h : lifeline E m k pc h → trail E k pc h.
Proof.
  intros [Hh|(_ & h0 & op & r & e & -> & Hh & Hres & ->)].
  - left. by apply history_shape.
  - right. apply history_shape in Hh.
    destruct k as [p|id a|cid]; cbn in Hh.
    + destruct Hh as [[-> ->]|[(data & Hdata & -> & ->)|(h1 & Hh1 & -> & ->)]];
        by destruct r.
    + destruct Hh as [-> ->]. by destruct r.
    + destruct Hh as [[-> ->]|[[-> ->]|(t & file & Ht & -> & ->)]];
        destruct r as [| | |t']; simplify_eq/=.
      destruct t' as [e'|status events]; simplify_eq/=; [by eauto|].
      by destruct (settled _).
Qed.

Lemma task_view E w st tid l1 a l2 :
  reachable E w st →
  trace st = l1 ++ (Some tid, a) :: l2 →
  ∃ t p1 p2, tasks st !! tid = Some t ∧
    trail E (kind t) (pc t) (p1 ++ a :: p2) ∧
    (∀ x, x ∈ p1 ↔ (Some tid, x) ∈ l1) ∧
    (∀ x, x ∈ p2 ↔ (Some tid, x) ∈ l2).
Proof.
  intros [Hbound Hlife _]%reachable_wf_histories Htr.
  destruct (lookup_lt_is_Some_2 (tasks st) tid) as [t Ht].
  { apply (Hbound tid a). rewrite Htr. set_solver. }
  exists t, (proj tid l1), (proj tid l2). split_and!; [done| |..].
  - rewrite <-(proj_split _ _ _ _ _ Htr). eapply lifeline_trail. by apply Hlife.
  - intros x. apply elem_of_proj.
  - intros x. apply elem_of_proj.
Qed.

Lemma main_view E w st l1 a l2 :
  reachable E w st → trace st = l1 ++ (None, a) :: l2 → main_action a.
Proof.
  intros [_ _ Hmain]%reachable_wf_histories Htr.
  rewrite Forall_forall in Hmain. apply Hmain, elem_of_main_actions.
  rewrite Htr. set_solver.
Qed.

Ltac explode :=
  repeat match goal with
  | H : _ ∨ _ |- _ => destruct H
  | H : _ ∧ _ |- _ => destruct H
  | H : ∃ _, _ |- _ => destruct H
  | H : False |- _ => destruct H
  end.

Ltac unfold_shapes :=
  unfold trail, shape, pack_shape, asset_shape, content_shape,
    content_uploading, content_requested, content_checked,
    pack_upserting, pack_returned, pack_saving, pack_read, pack_checked,
    pack_upsert, pack_save, pack_check, asset_upsert in *.

Ltac split_list :=
  repeat match goal with
  | H : ?l ++ _ :: _ = _ |- _ => is_var l; destruct l; simplify_eq/=
  | H : _ = ?l ++ _ :: _ |- _ => is_var l; destruct l; simplify_eq/=
  end.

(** Bring the history of the task that made entry [a] into view. *)
Ltac view Hreach Htr :=
  let t := fresh "t" in
  let Ht := fresh "Ht" in
  let Hv := fresh "Hv" in
  let p1 := fresh "p1" in
  let p2 := fresh "p2" in
  let Hp1 := fresh "Hp1" in
  let Hp2 := fresh "Hp2" in
  destruct (task_view _ _ _ _ _ _ _ Hreach Htr) as (t & p1 & p2 & Ht & Hv & Hp1 & Hp2);
  revert Htr;
  destruct t as [[?|? ?|?] [?|?| |?]];
  unfold_shapes; cbn [kind pc] in Hv; explode; simplify_eq; split_list;
  intros Htr.

Ltac in_list :=
  first [apply list_elem_of_here | apply list_elem_of_further; in_list].

Ltac in_past :=
  match goal with
  | H : ∀ x, x ∈ _ ↔ (Some ?tid, x) ∈ ?l |- (Some ?tid, _) ∈ ?l =>
      apply H; in_list
  end.



(** ** What the loops of the main function produce *)

Lemma runM_bind {A B} (m : M A) (k : A → M B) next :
  runM (m ≫= k) next
  = match value (runM m next) with
    | Ok a =>
        let o1 := runM m next in
        let o2 := runM (k a) (next + length (spawned o1)) in
        mkOut (entries o1 ++ entries o2) (spawned o1 ++ spawned o2) (value o2)
    | Throw e => mkOut (entries (runM m next)) (spawned (runM m next)) (Throw e)
    end.
Proof. done. Qed.

Lemma Out_eta {A} (o : Out A) : mkOut (entries o) (spawned o) (value o) = o.
Proof. by destruct o. Qed.

Lemma runM_ret_bind {A B} (a : A) (k : A → M B) next :
  runM (mret a ≫= k) next = runM (k a) next.
Proof. rewrite runM_bind. cbn. by rewrite Nat.add_0_r, Out_eta. Qed.

Lemma runM_log_bind {B} s (k : unit → M B) next :
  runM (lift (log s) ≫= k) next
  = let o := runM (k ()) next in
    mkOut ((None, ALog s) :: entries o) (spawned o) (value o).
Proof. rewrite runM_bind. cbn. by rewrite Nat.add_0_r. Qed.

Lemma runM_spawn_bind {B} kd op (k : unit → M B) next :
  runM (spawn kd op ≫= k) next
  = let o := runM (k ()) (S next) in
    mkOut ((Some next, ACall op) :: entries o)
          (mkTask kd (Awaiting op) :: spawned o) (value o).
Proof. rewrite runM_bind. cbn. by rewrite Nat.add_1_r. Qed.

Lemma runM_try_catch_ok {A} (body : M A) handler next a :
  value (runM body next) = Ok a →
  runM (try_catch body handler) next = runM body next.
Proof. unfold try_catch. cbn [runM]. by intros ->. Qed.

Lemma for_of_cons {A} (x : A) l (f : A → M unit) :
  for_of (x :: l) f = (f x ≫= λ _, for_of l f).
Proof. done. Qed.

Lemma upsertAssetPacks_run E assetPacks next :
  runM (upsertAssetPacks E assetPacks) next
  = mkOut (calls_of E next (pack_tasks E assetPacks)) (pack_tasks E assetPacks)
          (Ok ()).
Proof.
  unfold upsertAssetPacks. revert next.
  induction assetPacks as [|p ps IH]; intros next; [done|].
  rewrite for_of_cons.
  change (runM (spawn (ForPack p) (first_op E (ForPack p))
                ≫= λ _, for_of ps (λ d, uploadThumbnail E d)) next
          = mkOut (calls_of E next (pack_tasks E (p :: ps)))
                  (pack_tasks E (p :: ps)) (Ok ())).
  rewrite runM_spawn_bind, IH. done.
Qed.

Lemma spawn_contents_run E cids next :
  runM (for_of cids (λ cid, spawn (ForContent cid) (S3Content_checkFile cid))) next
  = let ts := (λ cid, mkTask (ForContent cid)
                        (Awaiting (first_op E (ForContent cid)))) <$> cids in
    mkOut (calls_of E next ts) ts (Ok ()).
Proof.
  revert next. induction cids as [|cid cids IH]; intros next; [done|].
  rewrite for_of_cons. cbv beta. rewrite runM_spawn_bind, IH. done.
Qed.

Lemma get_contents id a :
  get "contents" (assetAttributes id a) = Some (VRecord (DefaultAsset.contents a)).
Proof. done. Qed.

Lemma asset_body_run E id a next :
  runM (let attributes := assetAttributes id a in
      lift (log ("Upserting asset " +:+ template (get "id" attributes)
                 +:+ " for asset pack " +:+ id));;
      spawn (ForAsset id a)
            (Asset_upsert attributes ["id"; "asset_pack_id"]);;
      try_catch
        (contents ← contents_of attributes;
         for_of (Object_values contents) (λ cid,
           spawn (ForContent cid) (S3Content_checkFile cid)))
        (λ error, lift (log ("Ignoring ERROR: " +:+ error)))) next
  = mkOut ((None, ALog ("Upserting asset " +:+ DefaultAsset.id a
                        +:+ " for asset pack " +:+ id)) ::
           calls_of E next (asset_tasks E id a))
          (asset_tasks E id a) (Ok ()).
Proof.
  cbv zeta. rewrite runM_log_bind, runM_spawn_bind.
  assert (runM (contents ← contents_of (assetAttributes id a);
              for_of (Object_values contents) (λ cid,
                spawn (ForContent cid) (S3Content_checkFile cid))) (S next)
          = let ts := (λ cid, mkTask (ForContent cid)
                         (Awaiting (first_op E (ForContent cid))))
                      <$> Object_values (DefaultAsset.contents a) in
            mkOut (calls_of E (S next) ts) ts (Ok ())) as Hbody.
  { unfold contents_of. rewrite get_contents, runM_ret_bind.
    apply spawn_contents_run. }
  erewrite runM_try_catch_ok; rewrite Hbody; done.
Qed.

Lemma assets_loop_run E id assets next :
  runM (for_of assets (λ defaultAttributes,
      let attributes := assetAttributes id defaultAttributes in
      lift (log ("Upserting asset " +:+ template (get "id" attributes)
                 +:+ " for asset pack " +:+ id));;
      spawn (ForAsset id defaultAttributes)
            (Asset_upsert attributes ["id"; "asset_pack_id"]);;
      try_catch
        (contents ← contents_of attributes;
         for_of (Object_values contents) (λ cid,
           spawn (ForContent cid) (S3Content_checkFile cid)))
        (λ error, lift (log ("Ignoring ERROR: " +:+ error))))) next
  = mkOut (iteration_entries E id next assets) (assets ≫= asset_tasks E id) (Ok ()).
Proof.
  revert next. induction assets as [|a assets IH]; intros next; [done|].
  rewrite for_of_cons, runM_bind. cbv beta. rewrite (asset_body_run E).
  cbn [value entries spawned]. cbv zeta. rewrite IH.
  cbn [value entries spawned]. reflexivity.
Qed.

Lemma upsertAssets_iteration_run E id next :
  runM (upsertAssets_iteration E id) next
  = match fixture_assets E id with
    | Ok assets =>
        mkOut (fixture_read E (id +:+ ".json") ++
               iteration_entries E id next assets)
              (assets ≫= asset_tasks E id) (Ok ())
    | Throw e => mkOut (fixture_read E (id +:+ ".json")) [] (Throw e)
    end.
Proof.
  unfold upsertAssets_iteration, fixture_assets. rewrite runM_bind.
  cbn [lift runM value entries spawned].
  destruct (readJSON_out E (JSON_parse_assets E) (id +:+ ".json")) as [-> _].
  destruct (res (readJSON E (JSON_parse_assets E) (id +:+ ".json"))) as [r|e];
    [|done].
  cbv zeta. rewrite (assets_loop_run E). by rewrite Nat.add_0_r.
Qed.

Lemma seed_start_run E next :
  runM (seed_start E) next
  = match fixture_packs E with
    | Ok assetPacks =>
        mkOut (fixture_read E "packs.json" ++
               (None, ALog "==== Asset packs ====") ::
               calls_of E next (pack_tasks E assetPacks))
              (pack_tasks E assetPacks) (Ok (NextAwaitPacks assetPacks))
    | Throw e => mkOut (fixture_read E "packs.json") [] (Throw e)
    end.
Proof.
  unfold seed_start, fixture_packs. rewrite runM_bind.
  cbn [lift runM value entries spawned].
  destruct (readJSON_out E (JSON_parse_packs E) "packs.json") as [-> _].
  destruct (res (readJSON E (JSON_parse_packs E) "packs.json")) as [r|e];
    [|done].
  cbv zeta. rewrite runM_log_bind, runM_bind, upsertAssetPacks_run.
  cbn [mret M_ret runM value entries spawned length app].
  by rewrite ?Nat.add_0_r, ?app_nil_r.
Qed.

Lemma upsertAssets_loop_run E packs next :
  runM (upsertAssets_loop E packs) next
  = match packs with
    | [] => mkOut [] [] (Ok NextDone)
    | pack :: rest =>
        let id := DefaultAssetPack.id pack in
        match fixture_assets E id with
        | Ok assets =>
            mkOut (fixture_read E (id +:+ ".json") ++
                   iteration_entries E id next assets)
                  (assets ≫= asset_tasks E id) (Ok (NextAwaitAssets rest))
        | Throw e => mkOut (fixture_read E (id +:+ ".json")) [] (Throw e)
        end
    end.
Proof.
  destruct packs as [|pack rest]; [done|].
  cbn [upsertAssets_loop]. rewrite runM_bind, upsertAssets_iteration_run.
  destruct (fixture_assets E (DefaultAssetPack.id pack)) as [assets|e]; [|done].
  cbn. by rewrite !app_nil_r.
Qed.

(** ** Where tasks come from *)

Lemma main_code_cases E st m :
  main_code E st = Some m →
  (main st = Start ∧ m = seed_start E) ∨
  (∃ packs all u, main st = AwaitPacks packs all ∧ outcome all = fulfilled u ∧
     m = seed_assets E packs) ∨
  (∃ rest all u, main st = AwaitAssets rest all ∧ outcome all = fulfilled u ∧
     m = upsertAssets_loop E rest) ∨
  (∃ rest all e, main st = AwaitAssets rest all ∧ outcome all = rejected e ∧
     m = upsertAssets_catch E e rest).
Proof.
  unfold main_code. destruct (main st) as [|packs all|rest all| |]; try done.
  - intros [= <-]. by left.
  - destruct (outcome all) eqn:Hall; try done. intros [= <-].
    right. left. by eexists _, _, _.
  - destruct (outcome all) eqn:Hall; try done; intros [= <-].
    + right. right. left. by eexists _, _, _.
    + right. right. right. by eexists _, _, _.
Qed.

Lemma seed_assets_run E packs next :
  runM (seed_assets E packs) next
  = let o := runM (upsertAssets_loop E packs) next in
    mkOut ((None, ALog "==== Assets ====") :: entries o) (spawned o) (value o).
Proof. unfold seed_assets. by rewrite runM_log_bind. Qed.

Lemma upsertAssets_catch_run E e rest next :
  runM (upsertAssets_catch E e rest) next
  = let o := runM (upsertAssets_loop E rest) next in
    mkOut ((None, ALog ("Error saving assets: " +:+ e)) :: entries o)
          (spawned o) (value o).
Proof. unfold upsertAssets_catch. by rewrite runM_log_bind. Qed.

Lemma elem_of_asset_tasks E id a t :
  t ∈ asset_tasks E id a →
  kind t = ForAsset id a ∨
  ∃ cid, kind t = ForContent cid ∧ cid ∈ Object_values (DefaultAsset.contents a).
Proof.
  unfold asset_tasks. rewrite elem_of_cons, list_elem_of_fmap.
  intros [->|(cid & -> & Hcid)]; [by left|right; eauto].
Qed.

Lemma loop_from_fixtures E seen packs next tid t :
  fixture_packs E = Ok (seen ++ packs) →
  spawned (runM (upsertAssets_loop E packs) next) !! tid = Some t →
  from_fixtures E (kind t).
Proof.
  intros Hpacks. rewrite upsertAssets_loop_run.
  destruct packs as [|pack rest]; [done|]. cbv zeta.
  destruct (fixture_assets E (DefaultAssetPack.id pack)) as [assets|e] eqn:Hassets;
    [|done].
  cbn [spawned]. intros Ht%list_elem_of_lookup_2.
  apply list_elem_of_bind in Ht as (a & Ht & Ha).
  assert (pack ∈ seen ++ pack :: rest) by set_solver.
  apply elem_of_asset_tasks in Ht as [->|(cid & -> & Hcid)]; cbn.
  - by eexists _, pack, assets.
  - by eexists _, pack, assets, a.
Qed.

Lemma loop_main_ok E seen packs next all :
  fixture_packs E = Ok (seen ++ packs) →
  main_ok E (next_main (value (runM (upsertAssets_loop E packs) next)) all).
Proof.
  intros Hpacks. rewrite upsertAssets_loop_run.
  destruct packs as [|pack rest]; [done|]. cbv zeta.
  destruct (fixture_assets E (DefaultAssetPack.id pack)) as [assets|e]; [|done].
  cbn. exists (seen ++ [pack]). by rewrite <-app_assoc.
Qed.

Lemma fixtures_inv_step E st st' :
  fixtures_inv E st → Step E st st' → fixtures_inv E st'.
Proof.
  intros [Hmain Htasks] Hstep. destruct Hstep as
    [tid r t op w Hrun Ht Hpc Hres|tid r t op e Hrun Ht Hpc Hres
    |tid t filename w Hrun Ht Hpc Hk|m Hm|assetPacks all e Hmn Hall].
  - split; cbn.
    + by destruct (main st).
    + intros tid' t' Ht'. destruct (decide (tid = tid')) as [<-|Hne].
      * rewrite list_lookup_insert_eq in Ht' by by eapply lookup_lt_Some.
        simplify_eq/=. by eapply Htasks.
      * rewrite list_lookup_insert_ne in Ht' by done. by eapply Htasks.
  - by split.
  - split; cbn.
    + by destruct (main st).
    + intros tid' t' Ht'. destruct (decide (tid = tid')) as [<-|Hne].
      * rewrite list_lookup_insert_eq in Ht' by by eapply lookup_lt_Some.
        simplify_eq/=. by eapply Htasks.
      * rewrite list_lookup_insert_ne in Ht' by done. by eapply Htasks.
  - assert (∀ tid t, spawned (runM m (length (tasks st))) !! tid = Some t →
                     from_fixtures E (kind t)) as Hnew.
    { apply main_code_cases in Hm as
        [[Hst ->]|[(packs & all & u & Hst & Hall & ->)
        |[(rest & all & u & Hst & Hall & ->)|(rest & all & e & Hst & Hall & ->)]]];
        rewrite Hst in Hmain; cbn in Hmain.
      - rewrite seed_start_run.
        destruct (fixture_packs E) as [packs|e] eqn:Hpacks; [|done].
        cbn [spawned]. intros tid t Ht%list_elem_of_lookup_2.
        apply list_elem_of_fmap in Ht as (p & -> & Hp). cbn. eauto.
      - rewrite seed_assets_run. cbv zeta. cbn [spawned]. intros tid t.
        by apply (loop_from_fixtures E []).
      - destruct Hmain as [seen Hpacks]. intros tid t.
        by apply (loop_from_fixtures E seen).
      - destruct Hmain as [seen Hpacks]. rewrite upsertAssets_catch_run.
        cbv zeta. cbn [spawned]. intros tid t. by apply (loop_from_fixtures E seen). }
    split; cbn.
    + apply main_code_cases in Hm as
        [[Hst ->]|[(packs & all & u & Hst & Hall & ->)
        |[(rest & all & u & Hst & Hall & ->)|(rest & all & e & Hst & Hall & ->)]]];
        rewrite Hst in Hmain; cbn in Hmain.
      * rewrite seed_start_run. by destruct (fixture_packs E) eqn:Hpacks.
      * rewrite seed_assets_run. cbv zeta. cbn [value]. by apply (loop_main_ok E []).
      * destruct Hmain as [seen Hpacks]. by apply (loop_main_ok E seen).
      * destruct Hmain as [seen Hpacks]. rewrite upsertAssets_catch_run.
        cbv zeta. cbn [value]. by apply (loop_main_ok E seen).
    + intros tid t. rewrite lookup_app. destruct (tasks st !! tid) eqn:Hl.
      * intros [= <-]. by eapply Htasks.
      * apply Hnew.
  - by split.
Qed.

Lemma reachable_fixtures_inv E w st : reachable E w st → fixtures_inv E st.
Proof.
  intros [ls Hrun]. eapply run_invariant; [| |done].
  - intros. by eapply fixtures_inv_step.
  - split; cbn; [done|]. by intros ??.
Qed.

(** ** Asset records *)

Global Arguments asset_upserts : simpl never.

Lemma asset_upserts_app l1 l2 :
  asset_upserts (l1 ++ l2) = asset_upserts l1 ++ asset_upserts l2.
Proof. apply omap_app. Qed.

Lemma asset_upserts_cons who a (l : list Entry) :
  asset_upserts ((who, a) :: l)
  = match a with
    | ACall (Asset_upsert attributes target) =>
        (attributes, target) :: asset_upserts l
    | _ => asset_upserts l
    end.
Proof. unfold asset_upserts. cbn. by destruct a as [| | |[]| | | | |]. Qed.

Lemma asset_upserts_contents E next (cids : list string) :
  asset_upserts
    (calls_of E next
       ((λ cid, mkTask (ForContent cid) (Awaiting (first_op E (ForContent cid))))
          <$> cids)) = [].
Proof.
  revert next. induction cids as [|cid cids IH]; intros next; [done|].
  cbn [fmap list_fmap calls_of]. rewrite asset_upserts_cons. apply IH.
Qed.

Lemma asset_upserts_asset_tasks E id a next :
  asset_upserts (calls_of E next (asset_tasks E id a))
  = [(assetAttributes id a, ["id"; "asset_pack_id"])].
Proof.
  unfold asset_tasks. cbn [calls_of]. rewrite asset_upserts_cons.
  cbn [first_op kind]. f_equal. apply asset_upserts_contents.
Qed.

Lemma asset_upserts_iteration E id next assets :
  asset_upserts (iteration_entries E id next assets)
  = (λ a, (assetAttributes id a, ["id"; "asset_pack_id"])) <$> assets.
Proof.
  revert next. induction assets as [|a assets IH]; intros next; [done|].
  cbn [iteration_entries].
  rewrite asset_upserts_cons, asset_upserts_app, asset_upserts_asset_tasks, IH.
  done.
Qed.

(** C3.  The record of an asset: its key columns are the asset's id and
    the pack's id, its model is the asset's original url, its thumbnail the
    basename of the fixture thumbnail, and it has neither [variations] nor
    [url]; the loop over a pack's fixture file starts one upsert per asset,
    in order, with that record and the conflict target (id, asset_pack_id);
    and every asset upsert of a run is started for an asset of the fixture
    file of a pack of [packs.json], with that record and that target. *)
Theorem asset_record_of_fixture E :
  (∀ id a,
     let attributes := assetAttributes id a in
     get "id" attributes = Some (VString (DefaultAsset.id a)) ∧
     get "asset_pack_id" attributes = Some (VString id) ∧
     row_key ["id"; "asset_pack_id"] attributes
       = [Some (VString (DefaultAsset.id a)); Some (VString id)] ∧
     get "model" attributes = Some (VString (DefaultAsset.url a)) ∧
     get "thumbnail" attributes
       = Some (VString (basename (DefaultAsset.thumbnail a))) ∧
     get "variations" attributes = None ∧
     get "url" attributes = None) ∧
  (∀ id assets next,
     fixture_assets E id = Ok assets →
     asset_upserts (entries (runM (upsertAssets_iteration E id) next))
     = (λ a, (assetAttributes id a, ["id"; "asset_pack_id"])) <$> assets) ∧
  (∀ w st l1 who attributes target l2,
     reachable E w st →
     trace st = l1 ++ (who, ACall (Asset_upsert attributes target)) :: l2 →
     ∃ tid packs p assets a,
       who = Some tid ∧
       fixture_packs E = Ok packs ∧ p ∈ packs ∧
       fixture_assets E (DefaultAssetPack.id p) = Ok assets ∧ a ∈ assets ∧
       attributes = assetAttributes (DefaultAssetPack.id p) a ∧
       target = ["id"; "asset_pack_id"]).
Proof.
  split_and!.
  - done.
  - intros id assets next Hassets.
    rewrite upsertAssets_iteration_run, Hassets. cbn [entries].
    by rewrite asset_upserts_app, asset_upserts_iteration.
  - intros w st l1 who attributes target l2 Hreach Htr.
    destruct who as [tid|];
      [|by destruct (main_view _ _ _ _ _ _ Hreach Htr)].
    pose proof (reachable_fixtures_inv _ _ _ Hreach) as [_ Hfrom].
    view Hreach Htr.
    all: apply Hfrom in Ht as (packs & p & assets & ? & ? & <- & ? & ?).
    all: by eexists tid, packs, p, assets, _.
Qed.

(** ** The statements about runs, on the example run *)

Ltac by_example_run := exists example_run; vm_compute; reflexivity.



Lemma asset_record_of_fixture_witness :
  fixture_assets example_env "p1" = Ok [example_asset1; example_asset2] ∧
  asset_upserts (entries (runM (upsertAssets_iteration example_env "p1") 2))
  = [ (assetAttributes "p1" example_asset1, ["id"; "asset_pack_id"]);
      (assetAttributes "p1" example_asset2, ["id"; "asset_pack_id"]) ].
Proof.
  assert (fixture_assets example_env "p1"
          = Ok [example_asset1; example_asset2]) as Hassets.
  { vm_compute. reflexivity. }
  split; [exact Hassets|].
  exact (proj1 (proj2 (asset_record_of_fixture example_env)) _ _ 2 Hassets).
Defined.

(** ** What the main function writes *)

Lemma Step_trace E st st' :
  Step E st st' →
  (∃ tid acts, trace st' = trace st ++ ((λ a, (Some tid, a)) <$> acts)) ∨
  (∃ m, main_code E st = Some m ∧
     trace st' = trace st ++ entries (runM m (length (tasks st))) ++
                 ((λ a, (None, a)) <$>
                    last_words (value (runM m (length (tasks st)))))) ∨
  (∃ assetPacks all e, main st = AwaitPacks assetPacks all ∧
     outcome all = rejected e ∧
     trace st' = trace st ++ [(None, AError e); (None, AExit)]).
Proof.
  intros [tid r t op w Hrun Ht Hpc Hres|tid r t op e Hrun Ht Hpc Hres
         |tid t filename w Hrun Ht Hpc Hk|m Hm|assetPacks all e Hmn Hall].
  - left. by eexists _, _.
  - left. by exists tid, [AReturn op r; AUncaught e].
  - left. by eexists _, _.
  - right. left. by exists m.
  - right. right. by eexists _, _, _.
Qed.

Lemma calls_of_tagged E next ts a : (None, a) ∉ calls_of E next ts.
Proof. by intros (? & ? & ? & _)%elem_of_calls_of. Qed.

Lemma iteration_entries_main E id next assets a :
  (None, a) ∈ iteration_entries E id next assets →
  ∃ x, a = ALog ("Upserting asset " +:+ x +:+ " for asset pack " +:+ id).
Proof.
  revert next. induction assets as [|a' assets IH]; intros next.
  - by intros ?%elem_of_nil.
  - cbn [iteration_entries]. rewrite elem_of_cons, elem_of_app.
    intros [[= ->]|[Hin|Hin]]; [by eexists| |by eapply IH].
    by apply calls_of_tagged in Hin.
Qed.

Lemma fixture_read_main E filename a :
  (None, a) ∈ fixture_read E filename →
  a = ALog ("Reading file " +:+ getDataPath E +:+ "/" +:+ filename) ∨
  a = AReadFile (getDataPath E +:+ "/" +:+ filename).
Proof. unfold fixture_read. set_solver. Qed.

Lemma loop_entries_scripted E packs next a :
  (None, a) ∈ entries (runM (upsertAssets_loop E packs) next) → scripted a.
Proof.
  rewrite upsertAssets_loop_run. destruct packs as [|pack rest].
  { by intros ?%elem_of_nil. }
  cbv zeta. unfold scripted.
  destruct (fixture_assets E (DefaultAssetPack.id pack)) as [assets|e];
    cbn [entries]; rewrite ?elem_of_app.
  - intros [[-> | ->]%fixture_read_main|[x ->]%iteration_entries_main];
      eauto 10.
  - intros [-> | ->]%fixture_read_main; eauto 10.
Qed.

Lemma main_entries_scripted E st m next a :
  main_code E st = Some m →
  (None, a) ∈ entries (runM m next) → scripted a.
Proof.
  intros Hm. apply main_code_cases in Hm as
    [[Hst ->]|[(packs & all & u & Hst & Hall & ->)
    |[(rest & all & u & Hst & Hall & ->)|(rest & all & e & Hst & Hall & ->)]]].
  - rewrite seed_start_run. unfold scripted.
    destruct (fixture_packs E) as [packs|e]; cbn [entries];
      rewrite ?elem_of_app, ?elem_of_cons.
    + intros [[-> | ->]%fixture_read_main|[[= ->]|Hin]]; eauto 10.
      by apply calls_of_tagged in Hin.
    + intros [-> | ->]%fixture_read_main; eauto 10.
  - rewrite seed_assets_run. cbv zeta. cbn [entries]. rewrite elem_of_cons.
    intros [[= ->]|Hin]; [unfold scripted; eauto 10|].
    by eapply loop_entries_scripted.
  - apply loop_entries_scripted.
  - rewrite upsertAssets_catch_run. cbv zeta. cbn [entries]. rewrite elem_of_cons.
    intros [[= ->]|Hin]; [unfold scripted; eauto 10|].
    by eapply loop_entries_scripted.
Qed.

Lemma last_words_scripted v a : a ∈ last_words v → scripted a.
Proof.
  unfold scripted. destruct v as [[]|e]; cbn; rewrite ?elem_of_cons, ?elem_of_nil;
    intros; destruct_or?; simplify_eq; eauto 10; done.
Qed.

Lemma reachable_scripted E w st a :
  reachable E w st → (None, a) ∈ trace st → scripted a.
Proof.
  intros [ls Hrun]. revert a.
  eapply (run_invariant E (λ st, ∀ a, (None, a) ∈ trace st → scripted a));
    [| |done].
  - intros s s' IH Hstep a.
    apply Step_trace in Hstep as
      [(tid & acts & ->)|[(m & Hm & ->)|(packs & all & e & _ & _ & ->)]];
      rewrite !elem_of_app.
    + intros [Hin|Hin]; [by apply IH|].
      apply list_elem_of_fmap in Hin as (? & ? & _). done.
    + intros [Hin|[Hin|Hin]]; [by apply IH|by eapply main_entries_scripted|].
      apply list_elem_of_fmap in Hin as (a' & [= ->] & Hin).
      by eapply last_words_scripted.
    + intros [Hin|Hin]; [by apply IH|]. unfold scripted. set_solver.
  - by intros a ?%elem_of_nil.
Qed.

(** The [catch] of line 125 is never entered: nothing in a run logs
    "Ignoring ERROR". *)
Lemma inner_catch_dead E w st who e :
  reachable E w st → (who, ALog ("Ignoring ERROR: " +:+ e)) ∉ trace st.
Proof.
  intros Hreach Hin. destruct who as [tid|].
  - apply list_elem_of_split in Hin as (l1 & l2 & Htr).
    view Hreach Htr.
    all: cbv [String.append] in *; discriminate.
  - apply (reachable_scripted _ _ _ _ Hreach) in Hin. unfold scripted in Hin.
    explode; cbv [String.append] in *; discriminate.
Qed.



(** ** The order of the two phases *)

Lemma loop_out E st pre packs :
  resumed st pre packs →
  let o := runM (upsertAssets_loop E packs) (length (tasks st)) in
  main_out E st (mkOut (pre ++ entries o) (spawned o) (value o)).
Proof.
  intros Hres. cbv zeta. rewrite upsertAssets_loop_run.
  destruct packs as [|pack rest].
  - eapply main_out_done; [done|]. cbn. by rewrite app_nil_r.
  - cbv zeta.
    destruct (fixture_assets E (DefaultAssetPack.id pack)) as [assets|e] eqn:Ha.
    + by eapply main_out_next.
    + by eapply main_out_throw.
Qed.

Lemma main_code_out E st m :
  main_code E st = Some m → main_out E st (runM m (length (tasks st))).
Proof.
  intros Hm. apply main_code_cases in Hm as
    [[Hst ->]|[(packs & all & [] & Hst & Hall & ->)
    |[(rest & all & [] & Hst & Hall & ->)|(rest & all & e & Hst & Hall & ->)]]].
  - rewrite seed_start_run.
    destruct (fixture_packs E) as [packs|e] eqn:Hpacks.
    + by eapply main_out_start.
    + by eapply main_out_start_throw.
  - rewrite seed_assets_run.
    apply (loop_out E st [(None, ALog assets_banner)]). left. by exists all.
  - rewrite <-(Out_eta (runM _ _)).
    apply (loop_out E st []). right. exists all. split; [done|]. by left.
  - rewrite upsertAssets_catch_run.
    apply (loop_out E st [(None, ALog ("Error saving assets: " +:+ e))]).
    right. exists all. split; [done|]. right. by exists e.
Qed.

Lemma justified_nil J : justified J [].
Proof. intros l1 e l2 Heq. by destruct l1. Qed.

Lemma justified_app J tr new :
  justified J tr →
  (∀ l1 e l2, new = l1 ++ e :: l2 → J (tr ++ l1) e) →
  justified J (tr ++ new).
Proof.
  intros Htr Hnew l1 e l2 Heq.
  apply app_eq_inv in Heq as [(k & Hk1 & Hk2)|(k & Hk1 & Hk2)].
  - destruct k as [|e' k]; simplify_eq/=.
    + rewrite app_nil_r in *. specialize (Hnew [] e l2 eq_refl).
      by rewrite app_nil_r in Hnew.
    + by eapply Htr.
  - subst. by eapply Hnew.
Qed.

Lemma justified_tagged J tr tid (acts : list Action) :
  justified J tr →
  (∀ h1 a h2, acts = h1 ++ a :: h2 →
              J (tr ++ ((λ a, (Some tid, a)) <$> h1)) (Some tid, a)) →
  justified J (tr ++ ((λ a, (Some tid, a)) <$> acts)).
Proof.
  intros Htr Hnew. apply justified_app; [done|].
  intros l1 e l2 Heq. apply fmap_app_inv in Heq as (h1 & h2' & -> & Heq & ->).
  symmetry in Heq. apply fmap_cons_inv in Heq as (a & h2 & -> & -> & ->).
  by eapply Hnew.
Qed.

Global Arguments main_reads : simpl never.

Lemma main_reads_app l1 l2 : main_reads (l1 ++ l2) = main_reads l1 ++ main_reads l2.
Proof. apply omap_app. Qed.

Lemma main_reads_nil_iff (l : list Entry) :
  (∀ path, (None, AReadFile path) ∉ l) → main_reads l = [].
Proof.
  intros Hl. destruct (main_reads l) as [|path rs] eqn:Hr; [done|].
  assert (path ∈ main_reads l) as Hin by (rewrite Hr; left).
  apply list_elem_of_omap in Hin as ([[tid|] a] & Hin & Ha); [done|].
  destruct a; simplify_eq. by apply Hl in Hin.
Qed.

Lemma main_reads_tagged tid (acts : list Action) :
  main_reads ((λ a, (Some tid, a)) <$> acts) = [].
Proof.
  apply main_reads_nil_iff. intros path (? & ? & _)%list_elem_of_fmap. done.
Qed.

Lemma main_reads_calls_of E next ts : main_reads (calls_of E next ts) = [].
Proof. apply main_reads_nil_iff. intros path. apply calls_of_tagged. Qed.

Lemma main_reads_iteration E id next assets :
  main_reads (iteration_entries E id next assets) = [].
Proof.
  apply main_reads_nil_iff. intros path [x Hx]%iteration_entries_main. done.
Qed.

Lemma main_reads_fixture_read E filename :
  main_reads (fixture_read E filename) = [getDataPath E +:+ "/" +:+ filename].
Proof. done. Qed.

Lemma main_reads_last_words v :
  main_reads ((λ a, (None, a)) <$> last_words v) = [].
Proof. by destruct v as [[]|]. Qed.

Lemma settled_in_trace E st tid t :
  wf_histories E st → tasks st !! tid = Some t →
  (pc t = Fulfilled → (Some tid, AFulfilled) ∈ trace st) ∧
  (∀ e, pc t = Rejected e → (Some tid, ARejected e) ∈ trace st).
Proof.
  intros [_ Hlife _] Ht. specialize (Hlife _ _ Ht).
  apply lifeline_trail in Hlife.
  destruct t as [[p|id a|cid] pc0]; cbn [kind pc] in *.
  all: split; [intros ->|intros e ->].
  all: unfold_shapes; explode; try discriminate.
  all: apply elem_of_proj.
  all: match goal with
       | H : proj _ _ = _ |- _ => rewrite H
       end.
  all: rewrite ?elem_of_app, ?elem_of_cons; eauto 20.

Qed.

Lemma kind_insert (ts : list Task) tid t pc' :
  ts !! tid = Some t →
  kind <$> <[tid := mkTask (kind t) pc']> ts = kind <$> ts.
Proof.
  intros Ht. rewrite list_fmap_insert. apply list_insert_id.
  by rewrite list_lookup_fmap, Ht.
Qed.

Lemma not_banner_fixture_read E f e :
  e ∈ fixture_read E f → e ≠ (None, ALog assets_banner).
Proof.
  unfold fixture_read. rewrite !elem_of_cons, elem_of_nil.
  intros [->|[->|[]]] Heq; simplify_eq.
Qed.

Lemma not_banner_iteration E id next assets e :
  e ∈ iteration_entries E id next assets → e ≠ (None, ALog assets_banner).
Proof.
  intros Hin ->. apply iteration_entries_main in Hin as [x Hx].
  simplify_eq.
Qed.

Lemma notify_awaited tid pc' ts m all' :
  awaited (notify tid pc' ts m) = Some all' →
  ∃ all, awaited m = Some all ∧ all' = Promise_all_notify tid pc' ts all.
Proof. destruct m; cbn; intros; simplify_eq; eauto. Qed.

Lemma notify_outcome tid pc' ts all :
  outcome (Promise_all_notify tid pc' ts all)
  = match outcome all with
    | pending =>
        if decide (tid ∈ members all) then
          match pc' with
          | Rejected e => rejected e
          | Fulfilled =>
              if forallb (is_fulfilled ts) (members all)
              then fulfilled () else pending
          | _ => pending
          end
        else pending
    | o => o
    end.
Proof.
  unfold Promise_all_notify.
  destruct (outcome all) eqn:Hout; case_decide; try done;
    destruct pc'; cbn; rewrite ?Hout; try done; case_match; cbn;
    by rewrite ?Hout.
Qed.

Lemma notify_members tid pc' ts all :
  members (Promise_all_notify tid pc' ts all) = members all.
Proof.
  unfold Promise_all_notify. case_decide; [|done].
  destruct pc'; try done. by case_match.
Qed.

Lemma batch_ok_task E st tid t pre w world' all :
  wf_histories E st →
  tasks st !! tid = Some t →
  pc t ≠ Fulfilled → (∀ e, pc t ≠ Rejected e) →
  batch_ok st all →
  batch_ok (run_task st tid (kind t) pre w world')
    (Promise_all_notify tid (next_pc w)
       (<[tid := mkTask (kind t) (next_pc w)]> (tasks st)) all).
Proof.
  intros Hwf Ht Hnf Hnr (n & Hlen & Hmem & Hful & Hrej & Hold).
  pose proof (lookup_lt_Some _ _ _ Ht) as Hlt.
  set (pc' := next_pc w). set (ts' := <[tid := mkTask (kind t) pc']> (tasks st)).
  assert (∀ tid0, tid0 ≠ tid → ts' !! tid0 = tasks st !! tid0) as Hother.
  { intros tid0 Hne. subst ts'. by rewrite list_lookup_insert_ne. }
  assert (ts' !! tid = Some (mkTask (kind t) pc')) as Hself.
  { subst ts'. by rewrite list_lookup_insert_eq. }
  assert (length ts' = length (tasks st)) as Hlen'.
  { subst ts'. by rewrite length_insert. }
  assert (outcome all = fulfilled () → tid < n) as Hfn.
  { intros Hall. destruct (decide (tid < n)); [done|].
    destruct Hnf. apply (Hful Hall tid t); [lia|done]. }
  assert (tid ∈ members all ↔ n ≤ tid) as Hin.
  { rewrite Hmem, elem_of_seq. lia. }
  exists n. rewrite notify_members, notify_outcome.
  cbn [tasks trace run_task]. fold pc' ts'.
  split_and!.
  - by rewrite Hlen'.
  - done.
  - intros Hall tid0 t0 Hn0 Ht0.
    destruct (outcome all) as [|[]|e] eqn:Hout; [| |done].
    + case_decide; [|done]. destruct pc' eqn:Hpc'; try done.
      case_match eqn:Hforall; [|done].
      rewrite forallb_forall in Hforall.
      assert (tid0 ∈ members all) as Hm0.
      { rewrite Hmem, elem_of_seq. apply lookup_lt_Some in Ht0. lia. }
      apply list_elem_of_In, Hforall in Hm0. unfold is_fulfilled in Hm0.
      rewrite Ht0 in Hm0. by apply bool_decide_eq_true in Hm0.
    + specialize (Hfn eq_refl).
      rewrite Hother in Ht0 by lia. by eapply Hful.
  - intros e Hall.
    destruct (outcome all) as [|[]|e0] eqn:Hout; [|done|].
    + case_decide as Hm; [|done]. destruct pc' eqn:Hpc'; try done.
      * by case_match.
      * simplify_eq. exists tid, (mkTask (kind t) (Rejected e)).
        split_and!; [by apply Hin|done|done].
    + simplify_eq.
      destruct (Hrej e eq_refl) as (tid0 & t0 & Hn0 & Ht0 & Hpc0).
      exists tid0, t0. split_and!; [done| |done].
      rewrite Hother; [done|]. intros ->. simplify_eq. by eapply Hnr.
  - intros Hnone tid0 t0 Hlt0 Ht0.
    assert (∀ tid e, (Some tid, ARejected e) ∉ trace st) as Hnone'.
    { intros tid1 e Hin1. apply (Hnone tid1 e). set_solver. }
    destruct (decide (tid0 = tid)) as [->|Hne].
    + destruct Hnf. by apply (Hold Hnone' tid t).
    + rewrite Hother in Ht0 by done. by eapply Hold.
Qed.

Lemma notify_AwaitAssets tid pc' ts m rest all' :
  notify tid pc' ts m = AwaitAssets rest all' → ∃ all, m = AwaitAssets rest all.
Proof. destruct m; cbn; intros; simplify_eq; eauto. Qed.

Lemma notify_AwaitPacks tid pc' ts m packs all' :
  notify tid pc' ts m = AwaitPacks packs all' →
  ∃ all, m = AwaitPacks packs all ∧ all' = Promise_all_notify tid pc' ts all.
Proof. destruct m; cbn; intros; simplify_eq; eauto. Qed.

Lemma notify_Start tid pc' ts m : notify tid pc' ts m = Start → m = Start.
Proof. by destruct m. Qed.

Lemma phase_order_task E st tid (acts : list Action) :
  wf_histories E st → await_inv E st → tid < length (tasks st) →
  justified (phase_order E) (trace st ++ ((λ a, (Some tid, a)) <$> acts)).
Proof.
  intros Hwf Hinv Hlt. apply justified_tagged; [apply Hinv|].
  intros h1 a h2 _. split_and!; [done| |done].
  intros tid' a' [= -> ->] Hn. apply elem_of_app. left.
  apply (proj2 (ai_banner _ _ Hinv)). lia.
Qed.

Lemma await_inv_task E st tid t pre w world' :
  wf_histories E st → await_inv E st →
  tasks st !! tid = Some t →
  pc t ≠ Fulfilled → (∀ e, pc t ≠ Rejected e) →
  await_inv E (run_task st tid (kind t) pre w world').
Proof.
  intros Hwf Hinv Ht Hnf Hnr.
  pose proof (lookup_lt_Some _ _ _ Ht) as Hlt.
  pose proof Hinv as [Hstart Hbatch Hpacks Hkinds [Hb1 Hb2] Hreads Horder].
  split; cbn [main tasks trace run_task].
  - intros Hst%notify_Start. destruct (Hstart Hst) as [Hnil _].
    by rewrite Hnil in Ht.
  - intros all' (all & Hall & ->)%notify_awaited.
    apply (batch_ok_task E st tid t pre w world' all); [done..|].
    by apply Hbatch.
  - intros packs all' (all & Hst & ->)%notify_AwaitPacks.
    rewrite notify_members, length_insert. by eapply Hpacks.
  - intros Hm. rewrite kind_insert by done. apply Hkinds.
    intros Hst. by rewrite Hst in Hm.
  - rewrite length_insert. split.
    + intros rest all' [all Hst]%notify_AwaitAssets. apply elem_of_app. left.
      by eapply Hb1.
    + intros Hl. apply elem_of_app. left. by apply Hb2.
  - rewrite main_reads_app, main_reads_tagged, app_nil_r.
    clear -Hreads. revert Hreads. by destruct (main st).
  - by apply phase_order_task.
Qed.

Lemma await_inv_crash E st tid op r e :
  wf_histories E st → await_inv E st → running st = true →
  tid < length (tasks st) →
  await_inv E {| main := Crashed; tasks := tasks st; world := world st;
                 trace := trace st ++ [(Some tid, AReturn op r);
                                       (Some tid, AUncaught e)] |}.
Proof.
  intros Hwf Hinv Hrun Hlt.
  pose proof Hinv as [Hstart Hbatch Hpacks Hkinds [Hb1 Hb2] Hreads Horder].
  split; cbn [main tasks trace awaited]; try done.
  - intros _. apply Hkinds. intros Hst.
    destruct (Hstart Hst) as [Hnil _]. rewrite Hnil in Hlt. cbn in Hlt. lia.
  - split; [done|]. intros Hl. apply elem_of_app. left. by apply Hb2.
  - rewrite main_reads_app.
    change [(Some tid, AReturn op r); (Some tid, AUncaught e)]
      with ((λ a, (Some tid, a)) <$> [AReturn op r; AUncaught e]).
    rewrite main_reads_tagged, app_nil_r.
    clear -Hrun Hreads. unfold running in Hrun. revert Hreads.
    destruct (main st); try done.
    + intros ->. by exists 0.
    + intros ->. eauto.
    + intros [-> _]. eauto.
  - change [(Some tid, AReturn op r); (Some tid, AUncaught e)]
      with ((λ a, (Some tid, a)) <$> [AReturn op r; AUncaught e]).
    by apply phase_order_task.
Qed.

Lemma iteration_entries_tid E id next assets tid a :
  (Some tid, a) ∈ iteration_entries E id next assets → next ≤ tid.
Proof.
  revert next. induction assets as [|a' assets IH]; intros next.
  - by intros ?%elem_of_nil.
  - cbn [iteration_entries]. rewrite elem_of_cons, elem_of_app.
    intros [[=]|[Hin|Hin]].
    + apply elem_of_calls_of in Hin as (i & t & [= ->] & _). lia.
    + apply IH in Hin. lia.
Qed.

Lemma justified_quiet E tr new :
  justified (phase_order E) tr →
  (None, ALog assets_banner) ∉ new →
  (∀ path, (None, AReadFile path) ∉ new) →
  (∀ tid a, (Some tid, a) ∈ new → length (planned_packs E) ≤ tid →
     (None, ALog assets_banner) ∈ tr) →
  justified (phase_order E) (tr ++ new).
Proof.
  intros Htr Hbanner Hreads Htasks. apply justified_app; [done|].
  intros l1 e l2 ->. split_and!.
  - intros ->. destruct Hbanner. set_solver.
  - intros tid a -> Hn. apply elem_of_app. left.
    apply (Htasks tid a); [set_solver|done].
  - intros path ->. destruct (Hreads path). set_solver.
Qed.

Lemma justified_read E tr filename :
  justified (phase_order E) tr →
  (main_reads tr ≠ [] → (None, ALog assets_banner) ∈ tr) →
  ((∀ tid e, (Some tid, ARejected e) ∉ tr) →
   ∀ tid a, (Some tid, a) ∈ tr → (Some tid, AFulfilled) ∈ tr) →
  justified (phase_order E) (tr ++ fixture_read E filename).
Proof.
  intros Htr Hbanner Hdone. apply justified_app; [done|].
  intros l1 e l2 Heq. unfold fixture_read in Heq.
  destruct l1 as [|e1 [|e2 [|e3 l1]]]; simplify_eq/=.
  - split_and!; [done..|]. done.
  - split_and!; [done|done|].
    intros path _. split.
    + rewrite main_reads_app. change (main_reads [_]) with (@nil string).
      rewrite app_nil_r. intros Hne. apply elem_of_app. left. by apply Hbanner.
    + intros Hnone tid a Hin.
      apply elem_of_app in Hin as [Hin|Hin]; [|set_solver].
      apply elem_of_app. left. apply (Hdone) with a; [|done].
      intros tid' e' Hin'. apply (Hnone tid' e'). set_solver.
Qed.

Lemma justified_banner E tr :
  justified (phase_order E) tr →
  (∀ tid, tid < length (planned_packs E) → (Some tid, AFulfilled) ∈ tr) →
  justified (phase_order E) (tr ++ [(None, ALog assets_banner)]).
Proof.
  intros Htr Hdone. apply justified_app; [done|].
  intros l1 e l2 Heq. destruct l1 as [|e1 [|e2 l1]]; simplify_eq/=.
  split_and!; [|done..].
  intros _ tid Htid. rewrite app_nil_r. by apply Hdone.
Qed.

(** When the main function can run on, the batch it awaited is settled. *)
Lemma resumed_done E st pre packs :
  wf_histories E st → await_inv E st → resumed st pre packs →
  (∀ tid e, (Some tid, ARejected e) ∉ trace st) →
  ∀ tid t, tasks st !! tid = Some t → pc t = Fulfilled.
Proof.
  intros Hwf Hinv Hres Hnone tid t Ht.
  assert (∃ all, awaited (main st) = Some all ∧
            (outcome all = fulfilled () ∨ ∃ e, outcome all = rejected e))
    as (all & Hall & Hout).
  { destruct Hres as [(all & -> & Hout & _)|(all & -> & [[Hout _]|(e & Hout & _)])];
      exists all; eauto. }
  destruct (ai_batch _ _ Hinv all Hall) as (n & Hlen & Hmem & Hful & Hrej & Hold).
  destruct Hout as [Hout|[e Hout]].
  - destruct (decide (tid < n)).
    + by apply (Hold Hnone tid t).
    + apply (Hful Hout tid t); [lia|done].
  - destruct (Hrej e Hout) as (tid0 & t0 & _ & Ht0 & Hpc0).
    destruct (Hnone tid0 e).
    by apply (settled_in_trace E st tid0 t0 Hwf Ht0).
Qed.

Lemma resumed_acted E st pre packs :
  wf_histories E st → await_inv E st → resumed st pre packs →
  (∀ tid e, (Some tid, ARejected e) ∉ trace st) →
  ∀ tid a, (Some tid, a) ∈ trace st → (Some tid, AFulfilled) ∈ trace st.
Proof.
  intros Hwf Hinv Hres Hnone tid a Hin.
  apply (wf_bound _ _ Hwf) in Hin.
  apply lookup_lt_is_Some in Hin as [t Ht].
  apply (settled_in_trace E st tid t Hwf Ht).
  by eapply resumed_done.
Qed.

Lemma resumed_main pre st packs who a :
  resumed st pre packs → (who, a) ∈ pre → who = None.
Proof.
  intros [(all & _ & _ & ->)|(all & _ & [[_ ->]|(e & _ & ->)])]; set_solver.
Qed.

Lemma resumed_reads pre st packs : resumed st pre packs → main_reads pre = [].
Proof.
  by intros [(all & _ & _ & ->)|(all & _ & [[_ ->]|(e & _ & ->)])].
Qed.

Lemma resumed_banner E st pre packs :
  await_inv E st → resumed st pre packs →
  (None, ALog assets_banner) ∈ trace st ++ pre.
Proof.
  intros Hinv [(all & _ & _ & ->)|(all & Hst & _)]; [set_solver|].
  apply elem_of_app. left. by eapply (proj1 (ai_banner _ _ Hinv)).
Qed.

Lemma resumed_justified E st pre packs :
  wf_histories E st → await_inv E st → resumed st pre packs →
  justified (phase_order E) (trace st ++ pre).
Proof.
  intros Hwf Hinv Hres.
  pose proof (ai_order _ _ Hinv) as Horder.
  destruct Hres as [(all & Hst & Hout & ->)|(all & Hst & [[_ ->]|(e & _ & ->)])].
  - apply justified_banner; [done|].
    intros tid Htid.
    destruct (ai_packs _ _ Hinv _ _ Hst) as [Hmem Hlen].
    destruct (ai_batch _ _ Hinv all) as (n & Hlen' & _ & Hful & _).
    { by rewrite Hst. }
    assert (n = 0) as -> by lia.
    rewrite <-Hlen in Htid. apply lookup_lt_is_Some in Htid as [t Ht].
    apply (settled_in_trace E st tid t Hwf Ht).
    apply (Hful Hout tid t); [lia|done].
  - by rewrite app_nil_r.
  - apply justified_quiet; [done|set_solver..].
Qed.

Lemma resumed_read_justified E st pre packs filename :
  wf_histories E st → await_inv E st → resumed st pre packs →
  justified (phase_order E) ((trace st ++ pre) ++ fixture_read E filename).
Proof.
  intros Hwf Hinv Hres.
  apply justified_read;
    [by eapply resumed_justified|intros _; by eapply resumed_banner|].
  intros Hnone tid a Hin. apply elem_of_app. left.
  apply elem_of_app in Hin as [Hin|Hin].
  - apply (resumed_acted E st pre packs Hwf Hinv Hres) with a; [|done].
    intros tid' e' Hin'. apply (Hnone tid' e'). set_solver.
  - by apply (resumed_main _ _ _ _ _ Hres) in Hin.
Qed.

Lemma planned_packs_eq E packs : fixture_packs E = Ok packs → planned_packs E = packs.
Proof. unfold planned_packs. by intros ->. Qed.

Lemma resumed_progress E st pre packs :
  fixtures_inv E st → await_inv E st → resumed st pre packs →
  ∃ seen, planned_packs E = seen ++ packs ∧
    main_reads (trace st) = take (S (length seen)) (planned_reads E).
Proof.
  intros [Hmain _] Hinv Hres. pose proof (ai_reads _ _ Hinv) as Hreads.
  destruct Hres as [(all & Hst & _)|(all & Hst & _)];
    rewrite Hst in Hmain, Hreads; cbn in Hmain.
  - exists []. split; [by apply planned_packs_eq|done].
  - destruct Hmain as [seen Hpacks%planned_packs_eq]. exists seen.
    split; [done|]. destruct Hreads as [-> Hlt].
    rewrite Hpacks, length_app. do 2 f_equal. lia.
Qed.

Lemma planned_reads_next E seen pack rest :
  planned_packs E = seen ++ pack :: rest →
  take (S (S (length seen))) (planned_reads E)
  = take (S (length seen)) (planned_reads E)
    ++ [getDataPath E +:+ "/" +:+ (DefaultAssetPack.id pack +:+ ".json")].
Proof.
  intros Hpacks. unfold planned_reads. rewrite Hpacks.
  rewrite fmap_app, fmap_cons. cbn [take]. rewrite <-app_comm_cons. f_equal.
  set (f := λ p, _). set (l := f <$> seen).
  assert (length seen = length l) as -> by (subst l; by rewrite length_fmap).
  rewrite take_app_length.
  replace (S (length l)) with (length l + 1) by lia.
  by rewrite take_app_add.
Qed.

Lemma pack_tasks_kinds E packs : kind <$> pack_tasks E packs = ForPack <$> packs.
Proof. unfold pack_tasks. rewrite <-list_fmap_compose. done. Qed.

Lemma asset_tasks_kinds E id assets :
  Forall (λ k, ∀ p, k ≠ ForPack p) (kind <$> (assets ≫= asset_tasks E id)).
Proof.
  apply Forall_forall. intros k (t & -> & Ht)%list_elem_of_fmap p.
  apply list_elem_of_bind in Ht as (a & Ht & _).
  apply elem_of_asset_tasks in Ht as [->|(cid & -> & _)]; done.
Qed.

Lemma await_inv_start E st packs :
  await_inv E st → main st = Start → fixture_packs E = Ok packs →
  await_inv E
    {| main := AwaitPacks packs
         {| members := seq (length (tasks st)) (length (pack_tasks E packs));
            outcome := match pack_tasks E packs with
                       | [] => fulfilled ()
                       | _ => pending
                       end |};
       tasks := tasks st ++ pack_tasks E packs;
       world := world st;
       trace := trace st ++
         (fixture_read E "packs.json" ++
          (None, ALog "==== Asset packs ====") ::
          calls_of E (length (tasks st)) (pack_tasks E packs)) ++ [] |}.
Proof.
  intros Hinv Hst Hpacks. destruct (ai_start _ _ Hinv Hst) as [Hts Htr].
  rewrite Hts, Htr, app_nil_r. cbn [length app].
  pose proof (planned_packs_eq _ _ Hpacks) as Hplanned.
  assert (length (pack_tasks E packs) = length packs) as Hlen.
  { unfold pack_tasks. by rewrite length_fmap. }
  split; cbn [main tasks trace awaited].
  - done.
  - intros all [= <-]. exists 0. cbn [members outcome]. split_and!; try done.
    + by rewrite length_seq.
    + by rewrite length_seq.
    + destruct (pack_tasks E packs); [|done]. by intros _ tid t _ ?.
    + intros e. by destruct (pack_tasks E packs).
    + intros _ tid t. lia.
  - intros assetPacks all [= <- <-]. cbn [members].
    by rewrite length_seq, Hplanned.
  - intros _. exists []. rewrite app_nil_r, Hplanned. split; [|done].
    apply pack_tasks_kinds.
  - split; [done|]. rewrite Hplanned. lia.
  - rewrite main_reads_app, main_reads_fixture_read.
    change ((None, ALog "==== Asset packs ====") :: ?l)
      with ([(None, ALog "==== Asset packs ====")] ++ l).
    by rewrite main_reads_app, main_reads_calls_of.
  - apply (justified_quiet E (fixture_read E "packs.json")).
    + apply (justified_read E []); [apply justified_nil|done|].
      by intros _ tid a ?%elem_of_nil.
    + rewrite elem_of_cons. intros [[=]|Hin]. by apply calls_of_tagged in Hin.
    + intros path. rewrite elem_of_cons. intros [[=]|Hin].
      by apply calls_of_tagged in Hin.
    + intros tid a. rewrite elem_of_cons. intros [[=]|Hin] Hn.
      apply elem_of_calls_of in Hin as (i & t & [= ->] & Hi%lookup_lt_Some & _).
      rewrite Hplanned in Hn. lia.
Qed.

Lemma await_inv_exited E st b tr :
  (∃ later, kind <$> tasks st = (ForPack <$> planned_packs E) ++ later ∧
     Forall (λ k, ∀ p, k ≠ ForPack p) later) →
  (length (planned_packs E) < length (tasks st) →
     (None, ALog assets_banner) ∈ tr) →
  (∃ k, main_reads tr = take k (planned_reads E)) →
  justified (phase_order E) tr →
  await_inv E {| main := Exited b; tasks := tasks st; world := world st;
                 trace := tr |}.
Proof. intros Hkinds Hbanner Hreads Horder. by split. Qed.

Lemma justified_last_words E tr (acts : list Action) :
  justified (phase_order E) tr →
  Forall (λ a, a = ALog "All done!" ∨ a = AExit ∨ ∃ e, a = AError e) acts →
  justified (phase_order E) (tr ++ ((λ a, (None, a)) <$> acts)).
Proof.
  intros Htr Hacts. rewrite Forall_forall in Hacts.
  apply justified_quiet; [done|..].
  - intros (a & [= <-] & Ha)%list_elem_of_fmap. unfold assets_banner in Ha.
    apply Hacts in Ha as [|[|[]]]; simplify_eq.
  - intros path (a & [= <-] & Ha)%list_elem_of_fmap.
    apply Hacts in Ha as [|[|[]]]; simplify_eq.
  - by intros tid a (a' & [=] & _)%list_elem_of_fmap.
Qed.

Lemma main_reads_quiet (acts : list Action) :
  Forall (λ a, a = ALog "All done!" ∨ a = AExit ∨ ∃ e, a = AError e) acts →
  main_reads ((λ a, (None, a)) <$> acts) = [].
Proof.
  intros Hacts. rewrite Forall_forall in Hacts.
  apply main_reads_nil_iff. intros path (a & [= <-] & Ha)%list_elem_of_fmap.
  apply Hacts in Ha as [|[|[]]]; simplify_eq.
Qed.

Lemma await_inv_exit E st assetPacks all e :
  await_inv E st → main st = AwaitPacks assetPacks all →
  await_inv E (exit_with_error st e).
Proof.
  intros Hinv Hst. unfold exit_with_error.
  assert (Forall (λ a, a = ALog "All done!" ∨ a = AExit ∨ ∃ e, a = AError e)
            [AError e; AExit]) as Hq.
  { rewrite !Forall_cons, Forall_nil. eauto 10. }
  change [(None, AError e); (None, AExit)]
    with ((λ a, (None : option nat, a)) <$> [AError e; AExit]).
  apply await_inv_exited.
  - apply (ai_kinds _ _ Hinv). by rewrite Hst.
  - intros Hl. apply elem_of_app. left. by apply (proj2 (ai_banner _ _ Hinv)).
  - rewrite main_reads_app, main_reads_quiet, app_nil_r by done.
    pose proof (ai_reads _ _ Hinv) as Hreads. rewrite Hst in Hreads. eauto.
  - apply justified_last_words; [apply Hinv|done].
Qed.

Lemma last_words_quiet v :
  Forall (λ a, a = ALog "All done!" ∨ a = AExit ∨ ∃ e, a = AError e)
    (last_words v).
Proof.
  destruct v as [[]|e]; cbn; rewrite ?Forall_cons, ?Forall_nil; eauto 10.
Qed.

Lemma resumed_not_Start st pre packs : resumed st pre packs → main st ≠ Start.
Proof. intros [(all & -> & _)|(all & -> & _)]; done. Qed.

Lemma await_inv_main E st m :
  wf_histories E st → fixtures_inv E st → await_inv E st →
  main_code E st = Some m → await_inv E (run_main st m).
Proof.
  intros Hwf Hfix Hinv Hm. apply main_code_out in Hm. unfold run_main.
  destruct Hm as [packs Hst Hpacks Ho|e Hst Hpacks Ho|pre Hres Ho
                 |pre pack rest assets Hres Hassets Ho
                 |pre pack rest e Hres Hassets Ho];
    rewrite Ho; cbn [spawned entries value next_main last_words fmap list_fmap].
  - by apply await_inv_start.
  - destruct (ai_start _ _ Hinv Hst) as [Hts Htr].
    rewrite app_nil_r.
    assert (planned_packs E = []) as Hplanned.
    { unfold planned_packs. by rewrite Hpacks. }
    change [(None, AError e); (None, AExit)]
      with ((λ a, (None : option nat, a)) <$> last_words (Throw e)).
    apply await_inv_exited.
    + exists []. by rewrite Hts, Hplanned.
    + rewrite Hts, Hplanned. cbn. lia.
    + exists 1. rewrite Htr. cbn [app].
      by rewrite main_reads_app, main_reads_fixture_read, main_reads_last_words.
    + rewrite Htr. cbn [app]. apply justified_last_words; [|apply last_words_quiet].
      apply (justified_read E []); [apply justified_nil|done|].
      by intros _ tid a ?%elem_of_nil.
  - rewrite !app_nil_r.
    change [(None, ALog "All done!"); (None, AExit)]
      with ((λ a, (None : option nat, a)) <$> last_words (Ok NextDone)).
    rewrite app_assoc.
    apply await_inv_exited.
    + apply (ai_kinds _ _ Hinv). by eapply resumed_not_Start.
    + intros _. apply elem_of_app. left. by eapply resumed_banner.
    + rewrite !main_reads_app, main_reads_last_words, (resumed_reads _ _ _ Hres).
      rewrite !app_nil_r.
      destruct (resumed_progress _ _ _ _ Hfix Hinv Hres) as (seen & _ & ->). eauto.
    + apply justified_last_words; [|apply last_words_quiet].
      by eapply resumed_justified.
  - rewrite app_nil_r.
    destruct (resumed_progress _ _ _ _ Hfix Hinv Hres) as (seen & Hplanned & Hreads).
    pose proof (resumed_banner _ _ _ _ Hinv Hres) as Hbanner.
    set (f := DefaultAssetPack.id pack +:+ ".json").
    set (new := assets ≫= asset_tasks E (DefaultAssetPack.id pack)).
    replace (trace st ++ pre ++ fixture_read E f ++
             iteration_entries E (DefaultAssetPack.id pack) (length (tasks st)) assets)
      with (((trace st ++ pre) ++ fixture_read E f) ++
            iteration_entries E (DefaultAssetPack.id pack) (length (tasks st)) assets)
      by (by rewrite <-!app_assoc).
    split; cbn [main tasks trace awaited].
    + done.
    + intros all [= <-]. exists (length (tasks st)). cbn [members outcome tasks trace].
      rewrite length_seq, length_app. split_and!; [done|done|..].
      * destruct new; [|done]. intros _ tid t Hn Ht%lookup_lt_Some.
        rewrite app_nil_r in Ht. lia.
      * intros e. by destruct new.
      * intros Hnone tid t Hlt Ht. rewrite lookup_app_l in Ht by done.
        apply (resumed_done E st pre (pack :: rest) Hwf Hinv Hres) with tid; [|done].
        intros tid' e' Hin. apply (Hnone tid' e'). set_solver.
    + done.
    + intros _. destruct (ai_kinds _ _ Hinv) as (later & Hkinds & Hlater).
      { by eapply resumed_not_Start. }
      exists (later ++ (kind <$> new)). rewrite fmap_app, Hkinds, app_assoc.
      split; [done|]. apply Forall_app. split; [done|]. apply asset_tasks_kinds.
    + split; intros; set_solver.
    + rewrite !main_reads_app, main_reads_fixture_read, main_reads_iteration.
      rewrite (resumed_reads _ _ _ Hres), !app_nil_r, Hreads.
      rewrite Hplanned, length_app. cbn [length]. split; [|lia].
      replace (S (length seen + S (length rest) - length rest))
        with (S (S (length seen))) by lia.
      by rewrite (planned_reads_next E seen pack rest).
    + apply justified_quiet.
      * by eapply resumed_read_justified.
      * intros Hin. by eapply not_banner_iteration.
      * by intros path [x Hx]%iteration_entries_main.
      * intros _ _ _ _. set_solver.
  - destruct (resumed_progress _ _ _ _ Hfix Hinv Hres) as (seen & Hplanned & Hreads).
    rewrite (app_nil_r (tasks st)).
    set (f := DefaultAssetPack.id pack +:+ ".json").
    change [(None, AError e); (None, AExit)]
      with ((λ a, (None : option nat, a)) <$> last_words (Throw e)).
    replace (trace st ++ (pre ++ fixture_read E f) ++
             ((λ a, (None : option nat, a)) <$> last_words (Throw e)))
      with (((trace st ++ pre) ++ fixture_read E f) ++
            ((λ a, (None : option nat, a)) <$> last_words (Throw e)))
      by (by rewrite <-!app_assoc).
    apply await_inv_exited.
    + apply (ai_kinds _ _ Hinv). by eapply resumed_not_Start.
    + intros _. apply elem_of_app. left. apply elem_of_app. left.
      by eapply resumed_banner.
    + exists (S (S (length seen))).
      rewrite !main_reads_app, main_reads_fixture_read, main_reads_last_words.
      rewrite (resumed_reads _ _ _ Hres), !app_nil_r, Hreads.
      by rewrite (planned_reads_next E seen pack rest).
    + apply justified_last_words; [|apply last_words_quiet].
      by eapply resumed_read_justified.
Qed.

Lemma await_inv_init E w : await_inv E (init w).
Proof.
  split; cbn; try done.
  - split; [done|lia].
  - apply justified_nil.
Qed.

Lemma await_inv_step E st st' :
  wf_histories E st → fixtures_inv E st → await_inv E st →
  Step E st st' → await_inv E st'.
Proof.
  intros Hwf Hfix Hinv Hstep. destruct Hstep as
    [tid r t op w Hrun Ht Hpc Hres|tid r t op e Hrun Ht Hpc Hres
    |tid t filename w Hrun Ht Hpc Hk|m Hm|assetPacks all e Hmain Hall].
  - apply await_inv_task; [done..| |]; rewrite Hpc; done.
  - apply await_inv_crash; [done..|]. by eapply lookup_lt_Some.
  - apply await_inv_task; [done..| |]; rewrite Hpc; done.
  - by apply await_inv_main.
  - by eapply await_inv_exit.
Qed.

Lemma reachable_await_inv E w st : reachable E w st → await_inv E st.
Proof.
  intros [ls Hrun].
  cut (wf_histories E st ∧ fixtures_inv E st ∧ await_inv E st); [naive_solver|].
  eapply (run_invariant E
            (λ s, wf_histories E s ∧ fixtures_inv E s ∧ await_inv E s));
    [| |done].
  - intros s s' (Hwf & Hfix & Hinv) Hstep. split_and!.
    + by eapply wf_histories_step.
    + by eapply fixtures_inv_step.
    + by eapply await_inv_step.
  - split_and!.
    + apply wf_histories_init.
    + split; cbn; [done|]. by intros ??.
    + apply await_inv_init.
Qed.

Lemma trail_fulfilled_last E k pc0 p1 p2 :
  trail E k pc0 (p1 ++ AFulfilled :: p2) → p2 = [].
Proof.
  intros Hv. destruct k as [?|? ?|?], pc0 as [?|?| |?];
    unfold_shapes; cbn [kind pc] in Hv; explode; simplify_eq; split_list; done.
Qed.

Lemma trail_pack_fulfilled E p pc0 p1 p2 :
  trail E (ForPack p) pc0 (p1 ++ AFulfilled :: p2) →
  AReturn (pack_upsert E p) RVoid ∈ p1.
Proof.
  intros Hv. destruct pc0 as [?|?| |?];
    unfold_shapes; cbn [kind pc] in Hv; explode; simplify_eq; split_list;
    set_solver.
Qed.

Lemma pack_task_index E st i p :
  await_inv E st → main st ≠ Start →
  planned_packs E !! i = Some p →
  ∃ t, tasks st !! i = Some t ∧ kind t = ForPack p.
Proof.
  intros Hinv Hst Hp.
  destruct (ai_kinds _ _ Hinv Hst) as (later & Hkinds & _).
  assert ((kind <$> tasks st) !! i = Some (ForPack p)) as Hi.
  { rewrite Hkinds. apply lookup_app_l_Some. by rewrite list_lookup_fmap, Hp. }
  rewrite list_lookup_fmap in Hi.
  destruct (tasks st !! i) as [t|]; simplify_eq/=. eauto.
Qed.

Lemma other_task_index E st tid t :
  await_inv E st → main st ≠ Start →
  tasks st !! tid = Some t → (∀ p, kind t ≠ ForPack p) →
  length (planned_packs E) ≤ tid.
Proof.
  intros Hinv Hst Ht Hk.
  destruct (decide (length (planned_packs E) ≤ tid)) as [|Hlt]; [done|].
  destruct (lookup_lt_is_Some_2 (planned_packs E) tid) as [p Hp]; [lia|].
  destruct (pack_task_index E st tid p Hinv Hst Hp) as (t' & Ht' & Hk').
  simplify_eq. by destruct (Hk p).
Qed.

Lemma banner_barrier E tr l1 l2 tid :
  justified (phase_order E) tr →
  tr = l1 ++ l2 → (None, ALog assets_banner) ∈ l1 →
  tid < length (planned_packs E) → (Some tid, AFulfilled) ∈ l1.
Proof.
  intros Horder -> (la & lb & ->)%list_elem_of_split Htid.
  rewrite <-app_assoc in Horder. cbn in Horder.
  destruct (Horder la _ _ eq_refl) as (Hb & _). specialize (Hb eq_refl tid Htid).
  set_solver.
Qed.

Lemma asset_phase_barrier E st l1 e l2 tid :
  await_inv E st → trace st = l1 ++ e :: l2 → asset_phase st l1 e →
  tid < length (planned_packs E) → (Some tid, AFulfilled) ∈ l1.
Proof.
  intros Hinv Htr Hphase Htid.
  pose proof (ai_order _ _ Hinv) as Horder.
  assert (main st ≠ Start) as Hst.
  { intros Hst. destruct (ai_start _ _ Hinv Hst) as [_ Hnil].
    rewrite Hnil in Htr. by destruct l1. }
  destruct (Horder l1 e l2 Htr) as (Hbanner & Htask & Hread).
  destruct Hphase as [->|[(path & -> & Hne)|(tid' & a & t & -> & Ht & Hk)]].
  - by apply Hbanner.
  - eapply (banner_barrier E (trace st) l1); [done..| |done].
    by apply (Hread path).
  - eapply (banner_barrier E (trace st) l1); [done..| |done].
    apply (Htask tid' a); [done|]. by eapply other_task_index.
Qed.

Lemma fulfilled_is_final E w st l1 l2 tid :
  reachable E w st → trace st = l1 ++ l2 → (Some tid, AFulfilled) ∈ l1 →
  ∀ b, (Some tid, b) ∉ l2.
Proof.
  intros Hreach Htr (la & lb & ->)%list_elem_of_split b Hb.
  rewrite <-app_assoc in Htr. cbn in Htr.
  destruct (task_view _ _ _ _ _ _ _ Hreach Htr) as (t & p1 & p2 & _ & Hv & _ & Hp2).
  apply trail_fulfilled_last in Hv as ->.
  apply (elem_of_nil b). apply Hp2. set_solver.
Qed.




(** ** A second run *)

Lemma upsert_keys target row table :
  row_key target <$> upsert target row table
  = if decide (row_key target row ∈ row_key target <$> table)
    then row_key target <$> table
    else (row_key target <$> table) ++ [row_key target row].
Proof.
  induction table as [|r table IH]; cbn.
  - case_decide as Hin; [by apply elem_of_nil in Hin|done].
  - destruct (decide (row_key target r = row_key target row)) as [Heq|Hne].
    + cbn. rewrite decide_True by (rewrite Heq; left). by rewrite Heq.
    + cbn. rewrite IH.
      destruct (decide (row_key target row ∈ row_key target <$> table)) as [Hin|Hnin].
      * by rewrite decide_True by (by right).
      * rewrite decide_False; [done|]. rewrite elem_of_cons. naive_solver.
Qed.

Lemma upsert_keys_present target row table :
  row_key target row ∈ row_key target <$> table →
  row_key target <$> upsert target row table = row_key target <$> table.
Proof. intros Hin. by rewrite upsert_keys, decide_True. Qed.

Lemma upsert_keys_mono target row table k :
  k ∈ row_key target <$> table → k ∈ row_key target <$> upsert target row table.
Proof. rewrite upsert_keys. case_decide; set_solver. Qed.

Lemma upsert_keys_added target row table :
  row_key target row ∈ row_key target <$> upsert target row table.
Proof. rewrite upsert_keys. case_decide; set_solver. Qed.

Lemma upsert_NoDup target row table :
  NoDup (row_key target <$> table) →
  NoDup (row_key target <$> upsert target row table).
Proof.
  intros Hnd. rewrite upsert_keys. case_decide as Hin; [done|].
  apply NoDup_app. split_and!; [done| |apply NoDup_singleton].
  intros k Hk ->%list_elem_of_singleton. done.
Qed.

Lemma awaited_op E st tid t op :
  wf_histories E st → tasks st !! tid = Some t → pc t = Awaiting op →
  match kind t with
  | ForPack p =>
      op = pack_check E p ∨ (∃ data, op = pack_save E p data) ∨
      op = pack_upsert E p
  | ForAsset id a => op = asset_upsert id a
  | ForContent cid =>
      op = S3Content_checkFile cid ∨ op = https_get (content_url E cid) ∨
      ∃ file, op = S3Content_saveFile cid file publicRead
  end.
Proof.
  intros [_ Hlife _] Ht Hpc. specialize (Hlife _ _ Ht).
  apply lifeline_trail in Hlife. rewrite Hpc in Hlife.
  destruct (kind t); unfold_shapes; explode; simplify_eq; eauto.
Qed.

Lemma effect_world_step E st tid t op r w :
  wf_histories E st → fixtures_inv E st →
  tasks st !! tid = Some t → pc t = Awaiting op →
  resume E (kind t) op r = Resume w →
  world_step E (world st) (effect op r (world st)).
Proof.
  intros Hwf Hfix Ht Hpc Hres.
  pose proof (awaited_op E st tid t op Hwf Ht Hpc) as Hop.
  pose proof (fi_tasks _ _ Hfix tid t Ht) as Hfrom.
  destruct (kind t) as [p|id a|cid]; unfold_shapes; explode; subst op.
  all: destruct r; simplify_eq/=; try apply world_same.
  all: try apply world_save.
  - by apply (world_pack E (world st) p).
  - by apply (world_asset E (world st) id a).
Qed.

Lemma Step_world_step E st st' :
  wf_histories E st → fixtures_inv E st → Step E st st' →
  world_step E (world st) (world st').
Proof.
  intros Hwf Hfix Hstep. destruct Hstep as
    [tid r t op w Hrun Ht Hpc Hres|tid r t op e Hrun Ht Hpc Hres
    |tid t filename w Hrun Ht Hpc Hk|m Hm|assetPacks all e Hmain Hall];
    cbn [world run_task run_main exit_with_error]; try apply world_same.
  by eapply effect_world_step.
Qed.

Lemma world_step_NoDup E w w' :
  world_step E w w' →
  (NoDup (pack_keys w) → NoDup (pack_keys w')) ∧
  (NoDup (asset_keys w) → NoDup (asset_keys w')).
Proof.
  intros [| | |]; unfold pack_keys, asset_keys; cbn; split; try done.
  - apply upsert_NoDup.
  - apply upsert_NoDup.
Qed.

Lemma world_step_keys_mono E w w' :
  world_step E w w' →
  (∀ k, k ∈ pack_keys w → k ∈ pack_keys w') ∧
  (∀ k, k ∈ asset_keys w → k ∈ asset_keys w').
Proof.
  intros [| | |]; unfold pack_keys, asset_keys; cbn; split; try done.
  - intros k. apply upsert_keys_mono.
  - intros k. apply upsert_keys_mono.
Qed.

Lemma world_step_bucket E w w' :
  world_step E w w' → dom (bucket w) ⊆ dom (bucket w').
Proof. intros [| | |]; cbn; set_solver. Qed.

Lemma world_step_seeded E w1 w w' :
  seeded E w1 → world_step E w w' →
  pack_keys w = pack_keys w1 ∧ asset_keys w = asset_keys w1 →
  pack_keys w' = pack_keys w1 ∧ asset_keys w' = asset_keys w1.
Proof.
  intros [Hpacks Hassets] Hstep [Hp Ha].
  destruct Hstep as [|k v|p Hfrom|id a Hfrom]; try done.
  - split; [|done]. rewrite <-Hp. unfold pack_keys. cbn.
    apply upsert_keys_present. fold (pack_keys w). rewrite Hp. by apply Hpacks.
  - split; [done|]. rewrite <-Ha. unfold asset_keys. cbn.
    apply upsert_keys_present. fold (asset_keys w). rewrite Ha. by apply Hassets.
Qed.

Lemma resume_fulfilled E k op r w :
  resume E k op r = Resume w → next_pc w = Fulfilled →
  match k with
  | ForPack _ => r = RVoid ∧ ∃ attributes, op = AssetPack_upsert attributes
  | ForAsset _ _ =>
      r = RVoid ∧ ∃ attributes target, op = Asset_upsert attributes target
  | ForContent _ => True
  end.
Proof.
  intros Hres Hpc. destruct k as [p|id a|cid]; [| |done].
  - destruct op, r; simplify_eq/=; eauto.
    destruct b; [done|]. unfold next_pc, W_bind in Hpc. cbn in Hpc.
    by destruct (fs_readFileSync _ _).
  - destruct op, r; simplify_eq/=; eauto.
Qed.

Lemma continue_not_fulfilled E k filename w :
  continue E k filename = Some w → next_pc w ≠ Fulfilled.
Proof. destruct k; intros; simplify_eq/=. done. Qed.

Lemma recorded_step E st st' :
  wf_histories E st → fixtures_inv E st → recorded E st →
  Step E st st' → recorded E st'.
Proof.
  intros Hwf Hfix Hrec Hstep.
  pose proof (Step_world_step _ _ _ Hwf Hfix Hstep) as Hworld.
  apply world_step_keys_mono in Hworld as [Hpacks Hassets].
  assert (∀ tid t, tasks st !! tid = Some t → pc t = Fulfilled →
            match kind t with
            | ForPack p =>
                row_key ["id"] (assetPackAttributes E p (pack_filename E p))
                  ∈ pack_keys (world st')
            | ForAsset id a =>
                row_key ["id"; "asset_pack_id"] (assetAttributes id a)
                  ∈ asset_keys (world st')
            | ForContent _ => True
            end) as Hold.
  { intros tid t Ht Hpc. specialize (Hrec tid t Ht Hpc).
    destruct (kind t); eauto. }
  clear Hpacks Hassets.
  destruct Hstep as
    [tid r t op w Hrun Ht Hpc Hres|tid r t op e Hrun Ht Hpc Hres
    |tid t filename w Hrun Ht Hpc Hk|m Hm|assetPacks all e Hmain Hall].
  - intros tid' t' Ht' Hpc'. cbn [tasks run_task] in Ht'.
    destruct (decide (tid' = tid)) as [->|Hne].
    + rewrite list_lookup_insert_eq in Ht' by by eapply lookup_lt_Some.
      injection Ht' as <-. cbn [kind pc world run_task] in *.
      pose proof (awaited_op E st tid t op Hwf Ht Hpc) as Hop.
      pose proof (resume_fulfilled E _ _ _ _ Hres Hpc') as Hful.
      destruct (kind t) as [p|id a|cid]; [| |done].
      * destruct Hful as (-> & attributes & ->).
        destruct Hop as [Hop|[[data Hop]|Hop]]; try discriminate.
        rewrite Hop. apply upsert_keys_added.
      * destruct Hful as (-> & attributes & target & ->).
        rewrite Hop. apply upsert_keys_added.
    + rewrite list_lookup_insert_ne in Ht' by done. by apply (Hold tid').
  - done.
  - intros tid' t' Ht' Hpc'. cbn [tasks run_task] in Ht'.
    destruct (decide (tid' = tid)) as [->|Hne].
    + rewrite list_lookup_insert_eq in Ht' by by eapply lookup_lt_Some.
      injection Ht' as <-. cbn [kind pc] in *.
      by apply continue_not_fulfilled in Hk.
    + rewrite list_lookup_insert_ne in Ht' by done. by apply (Hold tid').
  - intros tid' t' Ht' Hpc'. cbn [tasks run_main] in Ht'.
    apply lookup_app_Some in Ht' as [Ht'|[_ Ht']]; [by apply (Hold tid')|].
    pose proof (main_code_Tidy _ _ _ Hm (length (tasks st))) as [Hsp _ _].
    rewrite Forall_lookup in Hsp. apply Hsp in Ht'. congruence.
  - done.
Qed.

Lemma covered_mono E st st' seen :
  (∀ tid t, tasks st !! tid = Some t →
     ∃ t', tasks st' !! tid = Some t' ∧ kind t' = kind t) →
  covered E st seen → covered E st' seen.
Proof.
  intros Hkept Hcov p assets a Hp Hassets Ha.
  destruct (Hcov p assets a Hp Hassets Ha) as (tid & t & Ht & Hk).
  destruct (Hkept tid t Ht) as (t' & Ht' & Hk').
  exists tid, t'. split; [done|]. by rewrite Hk'.
Qed.

Lemma cover_inv_task E st tid t pre w world' :
  tasks st !! tid = Some t → cover_inv E st →
  cover_inv E (run_task st tid (kind t) pre w world').
Proof.
  intros Ht Hcov. unfold cover_inv in *. cbn [main run_task].
  assert (∀ seen, covered E st seen →
            covered E (run_task st tid (kind t) pre w world') seen) as Hmono.
  { intros seen. apply covered_mono. intros tid' t' Ht'. cbn [tasks run_task].
    destruct (decide (tid' = tid)) as [->|Hne].
    - rewrite list_lookup_insert_eq by by eapply lookup_lt_Some.
      simplify_eq. eauto.
    - rewrite list_lookup_insert_ne by done. eauto. }
  destruct (main st) as [| |rest all|[]|]; cbn [notify]; try done.
  - destruct Hcov as (seen & Hseen & Hcov). eauto.
  - eauto.
Qed.

Lemma resumed_seen E st pre packs :
  fixtures_inv E st → cover_inv E st → resumed st pre packs →
  ∃ seen, planned_packs E = seen ++ packs ∧ covered E st seen.
Proof.
  intros [Hmain _] Hcov Hres. unfold cover_inv in Hcov.
  destruct Hres as [(all & Hst & _)|(all & Hst & _)];
    rewrite Hst in Hmain, Hcov; cbn in Hmain.
  - exists []. split; [by apply planned_packs_eq|].
    by intros p assets a ?%elem_of_nil.
  - done.
Qed.

Lemma cover_inv_main E st m :
  fixtures_inv E st → cover_inv E st →
  main_code E st = Some m → cover_inv E (run_main st m).
Proof.
  intros Hfix Hcov Hm. apply main_code_out in Hm. unfold run_main.
  destruct Hm as [packs Hst Hpacks Ho|e Hst Hpacks Ho|pre Hres Ho
                 |pre pack rest assets Hres Hassets Ho
                 |pre pack rest e Hres Hassets Ho];
    rewrite Ho; unfold cover_inv;
    cbn [main spawned entries value next_main]; try done.
  - destruct (resumed_seen _ _ _ _ Hfix Hcov Hres) as (seen & Hseen & Hseen').
    rewrite app_nil_r in Hseen. rewrite Hseen.
    revert Hseen'. apply covered_mono. intros tid t Ht. cbn [tasks].
    rewrite app_nil_r. eauto.
  - destruct (resumed_seen _ _ _ _ Hfix Hcov Hres) as (seen & Hseen & Hseen').
    exists (seen ++ [pack]). split; [by rewrite <-app_assoc|].
    intros p assets' a [Hp| ->%list_elem_of_singleton]%elem_of_app Hassets' Ha.
    + destruct (Hseen' p assets' a Hp Hassets' Ha) as (tid & t & Ht & Hk).
      exists tid, t. split; [|done]. cbn [tasks]. by apply lookup_app_l_Some.
    + assert (assets' = assets) as -> by congruence.
      assert (mkTask (ForAsset (DefaultAssetPack.id pack) a)
                (Awaiting (first_op E (ForAsset (DefaultAssetPack.id pack) a)))
              ∈ tasks st ++ (assets ≫= asset_tasks E (DefaultAssetPack.id pack)))
        as (tid & Htid)%list_elem_of_lookup_1.
      { apply elem_of_app. right. apply list_elem_of_bind. exists a.
        split; [|done]. unfold asset_tasks. left. }
      eauto.
Qed.

Lemma cover_inv_step E st st' :
  fixtures_inv E st → cover_inv E st → Step E st st' → cover_inv E st'.
Proof.
  intros Hfix Hcov Hstep. destruct Hstep as
    [tid r t op w Hrun Ht Hpc Hres|tid r t op e Hrun Ht Hpc Hres
    |tid t filename w Hrun Ht Hpc Hk|m Hm|assetPacks all e Hmain Hall].
  - by apply cover_inv_task.
  - done.
  - by apply cover_inv_task.
  - by apply cover_inv_main.
  - done.
Qed.
